(** * Zeus.py (GREParser): a shallow embedding and its specification

    The vocabulary parser of [src/Zeus.py] is embedded function by function:
    the Python string methods it calls, its three regular expressions, the
    anchor-line parser, the block scanner, the root-derivation parser, the
    corpus loader and the two queries.

    Data model.  A Python [str] is a [string]; its characters are the code
    points below 256.  A value that may be [None] is an [option].  The two
    dictionaries are finite maps ([gmap]); a Python list is a [list].  The
    scanner reads its lines by index, and an index out of range is the
    outcome [IndexError]. *)

From Stdlib Require Import Ascii.
From stdpp Require Import base option list gmap strings.

(** ** Python string methods *)

Module PyStr.

(** [str.isspace] on one character, which is also the class [\s] of [re]
    for [str] patterns. *)
Definition isspace (c : ascii) : bool :=
  match c with
  | "009" | "010" | "011" | "012" | "013"
  | "028" | "029" | "030" | "031" | " " | "133" | "160" => true
  | _ => false
  end%char.

Definition char_eqb (c d : ascii) : bool := bool_decide (c = d).

(** [c in chars] *)
Fixpoint char_in (c : ascii) (chars : string) : bool :=
  match chars with
  | EmptyString => false
  | String d chars' => char_eqb c d || char_in c chars'
  end.

Fixpoint lstrip_by (p : ascii -> bool) (s : string) : string :=
  match s with
  | EmptyString => EmptyString
  | String c s' => if p c then lstrip_by p s' else s
  end.

Fixpoint rstrip_by (p : ascii -> bool) (s : string) : string :=
  match s with
  | EmptyString => EmptyString
  | String c s' =>
      match rstrip_by p s' with
      | EmptyString => if p c then EmptyString else String c EmptyString
      | r => String c r
      end
  end.

(** [s.strip()] *)
Definition strip (s : string) : string := lstrip_by isspace (rstrip_by isspace s).

(** [s.strip(chars)] *)
Definition strip_chars (chars s : string) : string :=
  lstrip_by (fun c => char_in c chars) (rstrip_by (fun c => char_in c chars) s).

(** [s.startswith(p)] *)
Fixpoint startswith (s p : string) : bool :=
  match p, s with
  | EmptyString, _ => true
  | String d p', String c s' => char_eqb c d && startswith s' p'
  | String _ _, EmptyString => false
  end.

(** [s.endswith(p)] *)
Fixpoint endswith (s p : string) : bool :=
  bool_decide (s = p) ||
  match s with
  | EmptyString => false
  | String _ s' => endswith s' p
  end.

(** [s[1:]] *)
Definition slice_1 (s : string) : string :=
  match s with
  | EmptyString => EmptyString
  | String _ s' => s'
  end.

(** [s[n:]] *)
Fixpoint slice_from (n : nat) (s : string) : string :=
  match n, s with
  | 0, _ => s
  | S _, EmptyString => EmptyString
  | S k, String _ s' => slice_from k s'
  end.

(** [s[:-1]] *)
Fixpoint slice_to_m1 (s : string) : string :=
  match s with
  | EmptyString => EmptyString
  | String c s' =>
      match s' with
      | EmptyString => EmptyString
      | String _ _ => String c (slice_to_m1 s')
      end
  end.

(** [s[1:-1]] *)
Definition slice_1_m1 (s : string) : string := slice_to_m1 (slice_1 s).

(** [sep.join(ws)] *)
Fixpoint join (sep : string) (ws : list string) : string :=
  match ws with
  | [] => EmptyString
  | [w] => w
  | w :: ws' => w +:+ sep +:+ join sep ws'
  end.

(** [s.split(sep)] for a separator of one character. *)
Fixpoint split (sep : ascii) (s : string) : list string :=
  match s with
  | EmptyString => [EmptyString]
  | String c s' =>
      if char_eqb c sep then EmptyString :: split sep s'
      else match split sep s' with
           | w :: ws => String c w :: ws
           | [] => [String c EmptyString]
           end
  end.

(** Truth value of a string and of a list. *)
Definition truthy (s : string) : bool :=
  match s with EmptyString => false | String _ _ => true end.

Definition nonempty {A} (l : list A) : bool :=
  match l with [] => false | _ :: _ => true end.

(** [str(x)] for a value that is a string or [None]. *)
Definition str (x : option string) : string := default "None" x.

Definition nl : ascii := "010"%char.
Definition dquote : ascii := "034"%char.

End PyStr.

(** ** The regular expressions *)

Module Re.
Import PyStr.

(** The longest prefix of [s] whose characters all satisfy [p]. *)
Fixpoint take_while (p : ascii -> bool) (s : string) : string :=
  match s with
  | EmptyString => EmptyString
  | String c s' => if p c then String c (take_while p s') else EmptyString
  end.

Fixpoint drop_while (p : ascii -> bool) (s : string) : string :=
  match s with
  | EmptyString => EmptyString
  | String c s' => if p c then drop_while p s' else s
  end.

(** The class [[^\s;]]. *)
Definition word_char (c : ascii) : bool := negb (isspace c) && negb (char_eqb c ";").

(** The class [[^>]]. *)
Definition not_gt (c : ascii) : bool := negb (char_eqb c ">").

(** The four alternatives of the token pattern
    [(<[^>]+>|![^\s;]+|[^\s;]+|;)], each tried at the start of [s]: the
    text it matches there, if it does.  Every quantifier is greedy and is
    followed by a character outside its class or by nothing, so the
    longest run is the only candidate. *)
Definition alt_angle (s : string) : option string :=
  match s with
  | String c s' =>
      let body := take_while not_gt s' in
      match body, drop_while not_gt s' with
      | String _ _, String e _ =>
          if char_eqb c "<" && char_eqb e ">"
          then Some (String c (body +:+ String e EmptyString)) else None
      | _, _ => None
      end
  | EmptyString => None
  end.

Definition alt_bang (s : string) : option string :=
  match s with
  | String c s' =>
      match take_while word_char s' with
      | String _ _ as w => if char_eqb c "!" then Some (String c w) else None
      | EmptyString => None
      end
  | EmptyString => None
  end.

Definition alt_word (s : string) : option string :=
  match take_while word_char s with
  | EmptyString => None
  | w => Some w
  end.

Definition alt_semi (s : string) : option string :=
  match s with
  | String c _ => if char_eqb c ";" then Some ";" else None
  | EmptyString => None
  end.

(** The first alternative that matches at the start of [s]. *)
Definition match_token (s : string) : option string :=
  match alt_angle s with
  | Some t => Some t
  | None =>
      match alt_bang s with
      | Some t => Some t
      | None =>
          match alt_word s with
          | Some t => Some t
          | None => alt_semi s
          end
      end
  end.

(** [re.findall] scans the positions of the line from left to right.
    [skip] counts the characters still covered by the last match; at a
    position where nothing matches the scan moves one character on. *)
Fixpoint findall_from (skip : nat) (s : string) : list string :=
  match s with
  | EmptyString => []
  | String _ s' =>
      match skip with
      | S k => findall_from k s'
      | 0 =>
          match match_token s with
          | Some t => t :: findall_from (String.length t - 1) s'
          | None => findall_from 0 s'
          end
      end
  end.

(** [re.findall(r'(<[^>]+>|![^\s;]+|[^\s;]+|;)', line)] *)
Definition findall_tokens (line : string) : list string := findall_from 0 line.

(** The class [[^)]]. *)
Definition not_rparen (c : ascii) : bool := negb (char_eqb c ")").

(** The class of [.]: every character but the newline. *)
Definition not_nl (c : ascii) : bool := negb (char_eqb c nl).

(** [re.match] with the pattern of [parse_derived_block]: an opening
    parenthesis, group 1 (one or more characters other than the closing
    parenthesis), the closing parenthesis, a colon, whitespace, and
    group 2 (the rest of the line).  The result is the pair of the two
    groups of the match at the start of [s], if there is one. *)
Definition match_root (s : string) : option (string * string) :=
  match s with
  | String c s1 =>
      let root := take_while not_rparen s1 in
      match root, drop_while not_rparen s1 with
      | String _ _, String e (String d s2) =>
          if char_eqb c "(" && char_eqb e ")" && char_eqb d ":"
          then Some (root, take_while not_nl (drop_while isspace s2))
          else None
      | _, _ => None
      end
  | EmptyString => None
  end.

(** The length of the text that [\s*\n] matches at the start of [s]: the
    greedy [\s*] gives characters back until a newline follows, so the
    match ends at the last newline of the leading whitespace. *)
Fixpoint blank_tail (s : string) : option nat :=
  match s with
  | EmptyString => None
  | String c s' =>
      if isspace c then
        match blank_tail s' with
        | Some n => Some (S n)
        | None => if char_eqb c nl then Some 1 else None
        end
      else None
  end.

(** The length of the match of [\n\s*\n] at the start of [s]. *)
Definition match_blank (s : string) : option nat :=
  match s with
  | String c s' => if char_eqb c nl then S <$> blank_tail s' else None
  | EmptyString => None
  end.

(** [re.split] cuts the text at each match, scanning from left to right;
    [cur] is the piece read since the last match. *)
Fixpoint split_from (skip : nat) (cur : string) (s : string) : list string :=
  match s with
  | EmptyString => [cur]
  | String c s' =>
      match skip with
      | S k => split_from k cur s'
      | 0 =>
          match match_blank s with
          | Some n => cur :: split_from (n - 1) EmptyString s'
          | None => split_from 0 (cur +:+ String c EmptyString) s'
          end
      end
  end.

(** [re.split(r'\n\s*\n', text)] *)
Definition split_blank (text : string) : list string := split_from 0 EmptyString text.

End Re.

(** ** The anchor-line parser *)

(** The five local variables of [parse_anchor_line]. *)
Record anchor_vars := AnchorVars {
  v_anchor : option string;
  v_synonyms : list string;
  v_antonyms : list string;
  v_meanings : list string;
  v_cur_meaning : list string
}.

Definition anchor_vars_init : anchor_vars :=
  AnchorVars None [] [] [] [].

(** [meanings.append(' '.join(cur_meaning).strip())] *)
Definition close_meaning (cur_meaning : list string) : string :=
  PyStr.strip (PyStr.join " " cur_meaning).

(** One iteration of [for t in tokens]. *)
Definition anchor_step (v : anchor_vars) (t : string) : anchor_vars :=
  if bool_decide (t = ";") then
    if PyStr.nonempty (v_cur_meaning v) then
      AnchorVars (v_anchor v) (v_synonyms v) (v_antonyms v)
        (v_meanings v ++ [close_meaning (v_cur_meaning v)]) []
    else v
  else
    match v_anchor v with
    | None =>
        let anchor := PyStr.strip_chars "<>!" t in
        AnchorVars (Some anchor) (v_synonyms v) (v_antonyms v) (v_meanings v)
          (v_cur_meaning v ++ [anchor])
    | Some _ =>
        if PyStr.startswith t "!" then
          AnchorVars (v_anchor v) (v_synonyms v) (v_antonyms v ++ [PyStr.slice_1 t])
            (v_meanings v) (v_cur_meaning v)
        else if PyStr.startswith t "<" && PyStr.endswith t ">" then
          AnchorVars (v_anchor v) (v_synonyms v ++ [PyStr.slice_1_m1 t]) (v_antonyms v)
            (v_meanings v) (v_cur_meaning v ++ [PyStr.slice_1_m1 t])
        else
          AnchorVars (v_anchor v) (v_synonyms v ++ [t]) (v_antonyms v)
            (v_meanings v) (v_cur_meaning v ++ [t])
    end.

(** The statements after the loop, and the returned tuple. *)
Definition anchor_finish (v : anchor_vars)
  : option string * list string * list string * list string :=
  let meanings :=
    if PyStr.nonempty (v_cur_meaning v)
    then v_meanings v ++ [close_meaning (v_cur_meaning v)]
    else v_meanings v in
  (v_anchor v, v_synonyms v, v_antonyms v, meanings).

Definition parse_tokens (tokens : list string)
  : option string * list string * list string * list string :=
  anchor_finish (fold_left anchor_step tokens anchor_vars_init).

Definition parse_anchor_line (line : string)
  : option string * list string * list string * list string :=
  parse_tokens (Re.findall_tokens line).

Definition anchor_of (r : option string * list string * list string * list string) :=
  r.1.1.1.
Definition synonyms_of (r : option string * list string * list string * list string) :=
  r.1.1.2.
Definition antonyms_of (r : option string * list string * list string * list string) :=
  r.1.2.
Definition meanings_of (r : option string * list string * list string * list string) :=
  r.2.

(** ** The root-derivation parser *)

(** The dictionary [{'word': w, 'root': root}]. *)
Record DerivedWord := mkDerivedWord {
  dw_word : string;
  dw_root : string
}.

(** The dictionary [{'root': root, 'meaning': root_meaning}]. *)
Record RootRef := mkRootRef {
  rr_root : option string;
  rr_meaning : option string
}.

(** The tuple [(root, root_meaning, derived_words)]. *)
Definition block : Type := option string * option string * list DerivedWord.

(** The loop [for w in lines[1:]: if w: derived_words.append(...)]. *)
Fixpoint derived_words_of (root : string) (ws : list string) : list DerivedWord :=
  match ws with
  | [] => []
  | w :: ws' =>
      if PyStr.truthy w then mkDerivedWord w root :: derived_words_of root ws'
      else derived_words_of root ws'
  end.

Definition parse_derived_block (lines : list string) : block :=
  match lines with
  | [] => (None, None, [])
  | first :: rest =>
      match Re.match_root first with
      | Some (root, root_meaning) =>
          (Some root, Some root_meaning, derived_words_of root rest)
      | None =>
          (Some first, Some EmptyString, derived_words_of first rest)
      end
  end.

(** ** The block scanner *)

(** What a run of the scanner can end in: a value, an index out of range,
    or a loop that used up the iterations it was given. *)
Inductive outcome (A : Type) : Type :=
  | Done (a : A)
  | IndexError
  | OutOfFuel.
Arguments Done {A} a.
Arguments IndexError {A}.
Arguments OutOfFuel {A}.

Global Instance outcome_ret : MRet outcome := fun A a => Done a.
Global Instance outcome_fmap : FMap outcome := fun A B f m =>
  match m with
  | Done a => Done (f a)
  | IndexError => IndexError
  | OutOfFuel => OutOfFuel
  end.
Global Instance outcome_bind : MBind outcome := fun A B f m =>
  match m with
  | Done a => f a
  | IndexError => IndexError
  | OutOfFuel => OutOfFuel
  end.

(** [lines[i]] *)
Definition getitem (lines : list string) (i : nat) : outcome string :=
  match lines !! i with
  | Some l => Done l
  | None => IndexError
  end.

(** The inner loop of the derived block:
    [while i < n and not lines[i].strip().startswith('}')]. *)
Fixpoint block_loop (fuel : nat) (lines : list string) (i : nat)
    (block_lines : list string) : outcome (nat * list string) :=
  match fuel with
  | 0 => OutOfFuel
  | S fuel' =>
      if bool_decide (i < length lines) then
        l ← getitem lines i;
        if PyStr.startswith (PyStr.strip l) "}" then Done (i, block_lines)
        else block_loop fuel' lines (S i) (block_lines ++ [PyStr.strip l])
      else Done (i, block_lines)
  end.

(** The inner loop of the context block:
    [while i < n and not lines[i].strip().startswith(']')]. *)
Fixpoint context_loop (fuel : nat) (lines : list string) (i : nat)
    (context_lines : list string) : outcome (nat * list string) :=
  match fuel with
  | 0 => OutOfFuel
  | S fuel' =>
      if bool_decide (i < length lines) then
        l ← getitem lines i;
        if PyStr.startswith (PyStr.strip l) "]" then Done (i, context_lines)
        else context_loop fuel' lines (S i)
               (context_lines ++ [PyStr.strip_chars (String PyStr.dquote EmptyString) (PyStr.strip l)])
      else Done (i, context_lines)
  end.

(** The outer loop [while i < n]. *)
Fixpoint scan_loop (fuel : nat) (lines : list string) (i : nat)
    (derived_blocks : list block) (contexts : list string)
    : outcome (list block * list string) :=
  match fuel with
  | 0 => OutOfFuel
  | S fuel' =>
      if bool_decide (i < length lines) then
        l ← getitem lines i;
        let line := PyStr.strip l in
        if PyStr.startswith line "{" then
          '(i', block_lines) ← block_loop (S (length lines)) lines (S i) [];
          let derived_blocks' :=
            if PyStr.nonempty block_lines
            then derived_blocks ++ [parse_derived_block block_lines]
            else derived_blocks in
          scan_loop fuel' lines (S i') derived_blocks' contexts
        else if PyStr.startswith line "[" then
          '(i', context_lines) ← context_loop (S (length lines)) lines (S i) [];
          scan_loop fuel' lines (S i') derived_blocks (contexts ++ context_lines)
        else scan_loop fuel' lines (S i) derived_blocks contexts
      else Done (derived_blocks, contexts)
  end.

Definition parse_blocks_and_contexts (lines : list string)
  : outcome (list block * list string) :=
  scan_loop (S (length lines)) lines 0 [] [].

(** ** The corpus loader *)

(** The dictionary [group_data]. *)
Record Group := mkGroup {
  g_anchor : option string;
  g_synonyms : list string;
  g_antonyms : list string;
  g_meanings : list string;
  g_roots : list RootRef;
  g_derived : list DerivedWord;
  g_contexts : list string
}.

(** The attributes of a [GREParser] that [parse] fills. *)
Record GREParser := mkGREParser {
  groups : list Group;
  anchor_dict : gmap (option string) Group;
  root_dict : gmap (option string) (list (option string))
}.

(** The object as [__init__] leaves it before it calls [parse]. *)
Definition GREParser_init : GREParser := mkGREParser [] ∅ ∅.

(** [d[k].append(x)] on a [defaultdict(list)]. *)
Definition dict_append (k x : option string)
    (d : gmap (option string) (list (option string)))
    : gmap (option string) (list (option string)) :=
  <[k := default [] (d !! k) ++ [x]]> d.

(** One iteration of [for dw in derived_words]; every [dw] has the key
    ['root']. *)
Definition index_derived (d : gmap (option string) (list (option string)))
    (dw : DerivedWord) : gmap (option string) (list (option string)) :=
  dict_append (Some (dw_root dw)) (Some (dw_word dw)) d.

(** One iteration of [for block in derived_blocks], on [group_data] and
    [self.root_dict]. *)
Definition add_block (anchor : option string)
    (s : Group * gmap (option string) (list (option string))) (b : block)
    : Group * gmap (option string) (list (option string)) :=
  let '(root, root_meaning, derived_words) := b in
  let g := s.1 in
  (mkGroup (g_anchor g) (g_synonyms g) (g_antonyms g) (g_meanings g)
     (g_roots g ++ [mkRootRef root root_meaning])
     (g_derived g ++ derived_words)
     (g_contexts g),
   fold_left index_derived derived_words (dict_append root anchor s.2)).

(** [[l for l in group.strip().split('\n') if l.strip()]] *)
Definition group_lines (group : string) : list string :=
  List.filter (fun l => PyStr.truthy (PyStr.strip l))
    (PyStr.split PyStr.nl (PyStr.strip group)).

(** One iteration of [for group in group_texts]. *)
Definition parse_group (self : GREParser) (group : string) : outcome GREParser :=
  match group_lines group with
  | [] => Done self
  | anchor_line :: rest =>
      let '(anchor, synonyms, antonyms, meanings) := parse_anchor_line anchor_line in
      '(derived_blocks, contexts) ← parse_blocks_and_contexts rest;
      let group_data := mkGroup anchor synonyms antonyms meanings [] [] contexts in
      let '(group_data, rd) :=
        fold_left (add_block anchor) derived_blocks (group_data, root_dict self) in
      Done (mkGREParser (groups self ++ [group_data])
              (<[anchor := group_data]> (anchor_dict self)) rd)
  end.

Fixpoint parse_groups (self : GREParser) (group_texts : list string) : outcome GREParser :=
  match group_texts with
  | [] => Done self
  | group :: group_texts' =>
      self' ← parse_group self group;
      parse_groups self' group_texts'
  end.

Definition parse (text : string) : outcome GREParser :=
  parse_groups GREParser_init (Re.split_blank (PyStr.strip text)).

(** ** The queries *)

(** The lines that [query_anchor] prints. *)
Definition query_anchor (self : GREParser) (anchor : string) : list string :=
  match anchor_dict self !! Some anchor with
  | None => ["No entry for " +:+ anchor]
  | Some data =>
      ["Anchor: " +:+ PyStr.str (g_anchor data);
       "Meanings: " +:+ PyStr.join "; " (g_meanings data)]
      ++ (if PyStr.nonempty (g_synonyms data)
          then ["Synonyms: " +:+ PyStr.join ", " (g_synonyms data)] else [])
      ++ (if PyStr.nonempty (g_antonyms data)
          then ["Antonyms: " +:+ PyStr.join ", " (g_antonyms data)] else [])
      ++ (if PyStr.nonempty (g_roots data)
          then "Roots:" ::
               map (fun r => "  " +:+ PyStr.str (rr_root r) +:+ ": " +:+ PyStr.str (rr_meaning r))
                 (g_roots data)
          else [])
      ++ (if PyStr.nonempty (g_derived data)
          then "Derived words:" ::
               map (fun d => "  " +:+ dw_word d +:+ " (root: " +:+ dw_root d +:+ ")")
                 (g_derived data)
          else [])
      ++ (if PyStr.nonempty (g_contexts data)
          then "Contexts:" :: map (fun c => "  " +:+ c) (g_contexts data)
          else [])
  end.

(** What [query_root] reports: [None] when it prints that no words were
    found, otherwise the set whose members it prints, one a line, in the
    order in which Python iterates the set. *)
Definition query_root (self : GREParser) (root : string) : option (gset (option string)) :=
  let words : gset (option string) :=
    list_to_set (default [] (root_dict self !! Some root)) in
  if decide (words = ∅) then None else Some words.

(** ** The command loop *)

(** What a line of input asks for. *)
Inductive command : Type :=
  | CmdQuit
  | CmdAnchor (anchor : string)
  | CmdRoot (root : string)
  | CmdUnknown.

(** The tests of the loop on [cmd = input(...).strip()], in their order. *)
Definition read_command (line : string) : command :=
  let cmd := PyStr.strip line in
  if bool_decide (cmd = "q") then CmdQuit
  else if PyStr.startswith cmd "a " then CmdAnchor (PyStr.strip (PyStr.slice_from 2 cmd))
  else if PyStr.startswith cmd "r " then CmdRoot (PyStr.strip (PyStr.slice_from 2 cmd))
  else CmdUnknown.




(** ** Vocabulary of the statements *)

(** The number of semicolon tokens. *)
Definition count_semi (tokens : list string) : nat :=
  length (List.filter (fun t => bool_decide (t = ";")) tokens).

(** The word that a token other than the semicolon adds to the in-progress
    meaning group, after the branches of [parse_anchor_line]; [seen] tells
    whether the anchor is set already. *)
Definition token_word (seen : bool) (t : string) : option string :=
  if negb seen then Some (PyStr.strip_chars "<>!" t)
  else if PyStr.startswith t "!" then None
  else if PyStr.startswith t "<" && PyStr.endswith t ">" then Some (PyStr.slice_1_m1 t)
  else Some t.

(** The meaning groups of a token sequence: the words between one semicolon
    token and the next, [cur] being the group in progress. *)
Fixpoint word_groups (seen : bool) (cur : list string) (tokens : list string)
  : list (list string) :=
  match tokens with
  | [] => [cur]
  | t :: ts =>
      if bool_decide (t = ";") then cur :: word_groups seen [] ts
      else word_groups true (cur ++ option_list (token_word seen t)) ts
  end.

(** Whether the anchor is set. *)
Definition anchor_seen (v : anchor_vars) : bool :=
  match v_anchor v with Some _ => true | None => false end.

(** A word is accounted for when it is the anchor or one of the synonyms. *)
Definition known_word (v : anchor_vars) (w : string) : Prop :=
  v_anchor v = Some w \/ In w (v_synonyms v).

(** The lines before the first one that, stripped, starts with [close]. *)
Fixpoint until_close (close : string) (ls : list string) : list string :=
  match ls with
  | [] => []
  | l :: ls' =>
      if PyStr.startswith (PyStr.strip l) close then []
      else l :: until_close close ls'
  end.

(** What the context loop keeps of a line. *)
Definition context_text (l : string) : string :=
  PyStr.strip_chars (String PyStr.dquote EmptyString) (PyStr.strip l).

(** Every character of [s] satisfies [p]. *)
Fixpoint all_chars (p : ascii -> bool) (s : string) : bool :=
  match s with
  | EmptyString => true
  | String c s' => p c && all_chars p s'
  end.

(** The four kinds of raw token: a marker in angle brackets, a marker that
    starts with [!], a bare word, the semicolon. *)
Inductive raw_token : string -> Prop :=
  | raw_marker body :
      body <> EmptyString -> all_chars Re.not_gt body = true ->
      raw_token (String "<" (body +:+ ">"))
  | raw_antonym w :
      w <> EmptyString -> all_chars Re.word_char w = true ->
      raw_token (String "!" w)
  | raw_word w :
      w <> EmptyString -> all_chars Re.word_char w = true ->
      raw_token w
  | raw_semi : raw_token ";".

(** Two states of the loop that differ in the antonyms at most. *)
Definition agree (v v' : anchor_vars) : Prop :=
  v_anchor v = v_anchor v' /\ v_synonyms v = v_synonyms v'
  /\ v_meanings v = v_meanings v' /\ v_cur_meaning v = v_cur_meaning v'.

(** A string with a character that is not whitespace. *)
Fixpoint visible (s : string) : bool :=
  match s with
  | EmptyString => false
  | String c s' => negb (PyStr.isspace c) || visible s'
  end.

(** The words recorded for a key of a [defaultdict(list)], and of
    [root_dict]. *)
Definition dict_words (d : gmap (option string) (list (option string)))
    (k : option string) : list (option string) :=
  default [] (d !! k).

Definition root_words (self : GREParser) (root : option string) : list (option string) :=
  dict_words (root_dict self) root.

(** What one iteration of [for block in derived_blocks] does to
    [group_data]. *)
Definition group_add_block (g : Group) (b : block) : Group :=
  mkGroup (g_anchor g) (g_synonyms g) (g_antonyms g) (g_meanings g)
    (g_roots g ++ [mkRootRef b.1.1 b.1.2]) (g_derived g ++ b.2) (g_contexts g).

(** The record that [parse] builds for a group text, whatever the state of
    the parser: [None] when the group has no line and the loop moves on. *)
Definition group_record (group : string) : option Group :=
  match group_lines group with
  | [] => None
  | anchor_line :: rest =>
      let '(anchor, synonyms, antonyms, meanings) := parse_anchor_line anchor_line in
      match parse_blocks_and_contexts rest with
      | Done (derived_blocks, contexts) =>
          Some (fold_left group_add_block derived_blocks
                  (mkGroup anchor synonyms antonyms meanings [] [] contexts))
      | _ => None
      end
  end.

(** The derived words of a list of dictionaries are indexed in [d]. *)
Definition derived_indexed (d : gmap (option string) (list (option string)))
    (dws : list DerivedWord) : Prop :=
  forall dw, In dw dws -> In (Some (dw_word dw)) (dict_words d (Some (dw_root dw))).

(** What a group with the anchor [a] adds to the index [d]: its anchor
    under each of its roots, and each derived word under its root. *)
Definition group_indexed (a : option string) (g : Group)
    (d : gmap (option string) (list (option string))) : Prop :=
  (forall rr, In rr (g_roots g) -> In a (dict_words d (rr_root rr)))
  /\ derived_indexed d (g_derived g).

(** A group refers to the root [r]: in one of its root entries, or as the
    root of one of its derived words. *)
Definition mentions_root (r : option string) (g : Group) : Prop :=
  In r (map rr_root (g_roots g))
  \/ In r (map (fun dw => Some (dw_root dw)) (g_derived g)).

(** The parser that a run of the loader ends with. *)
Definition loaded (o : outcome GREParser) : GREParser :=
  match o with
  | Done self => self
  | _ => GREParser_init
  end.

(** A text between double quotes, and lines joined by newlines. *)
Definition quoted (s : string) : string :=
  String PyStr.dquote (s +:+ String PyStr.dquote EmptyString).

Definition unlines (ls : list string) : string :=
  PyStr.join (String PyStr.nl EmptyString) ls.

(** The first and the last character of a string. *)
Definition head_char (s : string) : option ascii :=
  match s with
  | EmptyString => None
  | String c _ => Some c
  end.

Fixpoint last_char (s : string) : option ascii :=
  match s with
  | EmptyString => None
  | String c s' =>
      match s' with
      | EmptyString => Some c
      | String _ _ => last_char s'
      end
  end.

(** The characters of a string that are not whitespace, in order. *)
Fixpoint keep_visible (s : string) : string :=
  match s with
  | EmptyString => EmptyString
  | String c s' =>
      if PyStr.isspace c then keep_visible s' else String c (keep_visible s')
  end.

(** The texts of a list of strings, one after the other. *)
Fixpoint concat_strings (ls : list string) : string :=
  match ls with
  | [] => EmptyString
  | l :: ls' => l +:+ concat_strings ls'
  end.

(** The tokens other than the semicolon. *)
Definition word_tokens (tokens : list string) : list string :=
  List.filter (fun t => negb (bool_decide (t = ";"))) tokens.

(** A text in which the separator of groups (a newline, whitespace, a
    newline) matches nowhere. *)
Fixpoint blank_free (s : string) : bool :=
  match s with
  | EmptyString => true
  | String _ s' =>
      match Re.match_blank s with
      | Some _ => false
      | None => blank_free s'
      end
  end.

(** How often a group refers to the root [r]: in its root entries and as
    the root of its derived words. *)
Definition root_refs (r : option string) (g : Group) : nat :=
  length (List.filter (fun rr => bool_decide (rr_root rr = r)) (g_roots g))
  + length (List.filter (fun dw => bool_decide (Some (dw_root dw) = r)) (g_derived g)).

(** A token that starts with [!]. *)
Definition is_bang (t : string) : bool := PyStr.startswith t "!".

(** The tokens that come after the one that becomes the anchor; [seen]
    tells whether the anchor is set already. *)
Definition later_tokens (seen : bool) (tokens : list string) : list string :=
  if seen then word_tokens tokens else tail (word_tokens tokens).

(** The three modes of one pass over the lines of a group: outside every
    block, inside a derived block, inside a context block, the last two
    with the lines captured so far. *)
Inductive scan_mode : Type :=
  | Outside
  | InBlock (block_lines : list string)
  | InContext (context_lines : list string).

(** What closing a derived block adds to the derived blocks. *)
Definition close_block (derived_blocks : list block) (block_lines : list string)
  : list block :=
  if PyStr.nonempty block_lines
  then derived_blocks ++ [parse_derived_block block_lines]
  else derived_blocks.

(** The scanner as one pass from left to right that reads every line once:
    an opening line changes the mode, a closing line ends the block, the
    end of the lines ends an open block. *)
Fixpoint scan_pass (mode : scan_mode) (lines : list string)
    (derived_blocks : list block) (contexts : list string)
  : list block * list string :=
  match lines with
  | [] =>
      match mode with
      | Outside => (derived_blocks, contexts)
      | InBlock block_lines => (close_block derived_blocks block_lines, contexts)
      | InContext context_lines => (derived_blocks, contexts ++ context_lines)
      end
  | l :: lines' =>
      match mode with
      | Outside =>
          if PyStr.startswith (PyStr.strip l) "{"
          then scan_pass (InBlock []) lines' derived_blocks contexts
          else if PyStr.startswith (PyStr.strip l) "["
          then scan_pass (InContext []) lines' derived_blocks contexts
          else scan_pass Outside lines' derived_blocks contexts
      | InBlock block_lines =>
          if PyStr.startswith (PyStr.strip l) "}"
          then scan_pass Outside lines' (close_block derived_blocks block_lines) contexts
          else scan_pass (InBlock (block_lines ++ [PyStr.strip l])) lines'
                 derived_blocks contexts
      | InContext context_lines =>
          if PyStr.startswith (PyStr.strip l) "]"
          then scan_pass Outside lines' derived_blocks (contexts ++ context_lines)
          else scan_pass (InContext (context_lines ++ [context_text l])) lines'
                 derived_blocks contexts
      end
  end.

(** A block that the scanner got from a non-empty list of block lines. *)
Definition block_ok (b : block) : Prop :=
  exists first rest, b = parse_derived_block (first :: rest).

(** The roots of a group are set, and each derived word is not empty and
    has one of the roots of the group in its root field. *)
Definition group_ok (g : Group) : Prop :=
  Forall (fun rr => is_Some (rr_root rr) /\ is_Some (rr_meaning rr)) (g_roots g)
  /\ Forall (fun dw => dw_word dw <> EmptyString
                       /\ In (Some (dw_root dw)) (map rr_root (g_roots g)))
       (g_derived g).

(** The groups with the anchor [k], in the order of the corpus. *)
Definition groups_of_anchor (k : option string) (gs : list Group) : list Group :=
  List.filter (fun g => bool_decide (g_anchor g = k)) gs.

(** The mode in which the scanner stands after the lines [lines], started
    in the mode [mode]: [Outside] when the outer loop reads the next
    line. *)
Fixpoint scan_mode_after (mode : scan_mode) (lines : list string) : scan_mode :=
  match lines with
  | [] => mode
  | l :: lines' =>
      match mode with
      | Outside =>
          if PyStr.startswith (PyStr.strip l) "{"
          then scan_mode_after (InBlock []) lines'
          else if PyStr.startswith (PyStr.strip l) "["
          then scan_mode_after (InContext []) lines'
          else scan_mode_after Outside lines'
      | InBlock block_lines =>
          if PyStr.startswith (PyStr.strip l) "}"
          then scan_mode_after Outside lines'
          else scan_mode_after (InBlock (block_lines ++ [PyStr.strip l])) lines'
      | InContext context_lines =>
          if PyStr.startswith (PyStr.strip l) "]"
          then scan_mode_after Outside lines'
          else scan_mode_after (InContext (context_lines ++ [context_text l])) lines'
      end
  end.

(** What a group adds to the root index: the word [w] under the key [r]. *)
Definition root_entry (r : option string) (g : Group) (w : option string) : Prop :=
  (In r (map rr_root (g_roots g)) /\ w = g_anchor g)
  \/ (exists dw, In dw (g_derived g) /\ r = Some (dw_root dw) /\ w = Some (dw_word dw)).

(** * Properties *)

(** ** The embedding on sample inputs *)

Example findall_tokens_sample :
  Re.findall_tokens "a<b>c !;! <;> <>> <a b> !x <" =
    ["a<b>c"; "!"; ";"; "!"; "<;>"; "<>>"; "<a b>"; "!x"; "<"].
Proof. reflexivity. Qed.

Example match_root_sample :
  map Re.match_root ["(spec): to see"; "(a)b"; "():x"; "(a(b):  c"; "x(a):b"; "(a):"] =
    [Some ("spec", "to see"); None; None; Some ("a(b", "c"); None;
     Some ("a", EmptyString)].
Proof. reflexivity. Qed.

Example split_blank_sample :
  Re.split_blank (unlines ["a"; ""; "b"; " "; ""; " c"; "d"; ""; "e"]) =
    ["a"; "b"; unlines [" c"; "d"]; "e"]
  /\ Re.split_blank EmptyString = [EmptyString].
Proof. split; reflexivity. Qed.

Example parse_anchor_line_sample :
  parse_anchor_line "obscure cover; unclear opaque esoteric; unknown" =
    (Some "obscure", ["cover"; "unclear"; "opaque"; "esoteric"; "unknown"], [],
     ["obscure cover"; "unclear opaque esoteric"; "unknown"]).
Proof. reflexivity. Qed.

Example parse_sample :
  groups <$> parse (unlines ["run dash sprint"; ""; ";"; "{"; "spec"; "}"]) =
    Done [mkGroup (Some "run") ["dash"; "sprint"] [] ["run dash sprint"] [] [] [];
          mkGroup None [] [] [] [mkRootRef (Some "spec") (Some EmptyString)] [] []]
  /\ (self ← parse (unlines ["run dash sprint"; ""; ";"; "{"; "spec"; "}"]);
      Done (query_root self "spec", query_anchor self "run")) =
     Done (Some {[None]},
           ["Anchor: run"; "Meanings: run dash sprint"; "Synonyms: dash, sprint"]).
Proof. split; reflexivity. Qed.

(** ** The anchor-line parser and its meaning groups *)

Section AnchorLine.

Lemma count_semi_cons t ts :
  count_semi (t :: ts) = (if bool_decide (t = ";") then 1 else 0) + count_semi ts.
Proof. unfold count_semi. simpl. by destruct (bool_decide (t = ";")). Qed.

Lemma word_groups_length ts : forall seen cur,
  length (word_groups seen cur ts) = count_semi ts + 1.
Proof.
  induction ts as [|t ts IH]; intros seen cur; [done|].
  rewrite count_semi_cons. simpl.
  destruct (bool_decide (t = ";")); simpl; rewrite IH; lia.
Qed.

Lemma anchor_step_seen v t :
  anchor_seen (anchor_step v t) =
    if bool_decide (t = ";") then anchor_seen v else true.
Proof.
  unfold anchor_step, anchor_seen.
  destruct (bool_decide (t = ";")).
  - by destruct (PyStr.nonempty _).
  - destruct (v_anchor v); [|done].
    by repeat case_match.
Qed.

Lemma anchor_step_cur v t :
  t <> ";" ->
  v_cur_meaning (anchor_step v t) =
    v_cur_meaning v ++ option_list (token_word (anchor_seen v) t)
  /\ v_meanings (anchor_step v t) = v_meanings v.
Proof.
  intros Ht. unfold anchor_step, token_word, anchor_seen.
  rewrite bool_decide_eq_false_2 by done.
  destruct (v_anchor v); simpl; [|done].
  repeat case_match; simpl; by rewrite ?app_nil_r.
Qed.

(** The meanings are the closed non-empty meaning groups, in order. *)
Lemma fold_meanings ts : forall v,
  meanings_of (anchor_finish (fold_left anchor_step ts v)) =
    v_meanings v ++
    map close_meaning
      (List.filter PyStr.nonempty (word_groups (anchor_seen v) (v_cur_meaning v) ts)).
Proof.
  induction ts as [|t ts IH]; intros v.
  - unfold meanings_of, anchor_finish. simpl.
    destruct (PyStr.nonempty (v_cur_meaning v)); simpl; by rewrite ?app_nil_r.
  - cbn [fold_left]. rewrite IH, anchor_step_seen. cbn [word_groups].
    destruct (bool_decide (t = ";")) eqn:Hsemi.
    + unfold anchor_step. rewrite Hsemi. simpl.
      destruct (PyStr.nonempty (v_cur_meaning v)) eqn:Hne; simpl.
      * by rewrite <- app_assoc.
      * destruct (v_cur_meaning v); [done|discriminate].
    + apply bool_decide_eq_false in Hsemi.
      destruct (anchor_step_cur v t Hsemi) as [-> ->]. done.
Qed.

Lemma parse_anchor_line_meanings line :
  meanings_of (parse_anchor_line line) =
    map close_meaning
      (List.filter PyStr.nonempty (word_groups false [] (Re.findall_tokens line))).
Proof. unfold parse_anchor_line, parse_tokens. by rewrite fold_meanings. Qed.

End AnchorLine.

Section AnchorWords.

Lemma anchor_step_known v t w : known_word v w -> known_word (anchor_step v t) w.
Proof.
  unfold known_word, anchor_step. intros [Ha|Hs].
  - rewrite Ha. repeat case_match; simpl; auto.
  - repeat case_match; simpl; rewrite ?in_app_iff; auto.
Qed.

Lemma fold_known ts : forall v w,
  known_word v w -> known_word (fold_left anchor_step ts v) w.
Proof.
  induction ts as [|t ts IH]; intros v w H; [done|].
  cbn [fold_left]. by apply IH, anchor_step_known.
Qed.

Lemma anchor_step_word v t w :
  t <> ";" -> token_word (anchor_seen v) t = Some w ->
  known_word (anchor_step v t) w.
Proof.
  intros Ht. unfold token_word, anchor_seen, anchor_step, known_word.
  rewrite bool_decide_eq_false_2 by done.
  destruct (v_anchor v); simpl.
  - repeat case_match; simpl; intros [= <-]; rewrite in_app_iff; simpl; auto.
  - intros [= <-]. auto.
Qed.

Lemma anchor_step_semi_cur v :
  v_cur_meaning (anchor_step v ";") = [].
Proof.
  unfold anchor_step. rewrite bool_decide_eq_true_2 by done.
  destruct (v_cur_meaning v) eqn:E; simpl; done.
Qed.

(** Every word of every meaning group is the anchor or a synonym. *)
Lemma word_groups_known ts : forall v,
  Forall (known_word v) (v_cur_meaning v) ->
  Forall (Forall (known_word (fold_left anchor_step ts v)))
    (word_groups (anchor_seen v) (v_cur_meaning v) ts).
Proof.
  induction ts as [|t ts IH]; intros v Hcur.
  - by repeat constructor.
  - cbn [fold_left word_groups].
    destruct (bool_decide (t = ";")) eqn:Hsemi.
    + apply bool_decide_eq_true in Hsemi as ->. constructor.
      * eapply Forall_impl; [exact Hcur|]. intros w Hw.
        by apply fold_known, anchor_step_known.
      * specialize (IH (anchor_step v ";")).
        rewrite anchor_step_seen, anchor_step_semi_cur in IH.
        rewrite bool_decide_eq_true_2 in IH by done. by apply IH.
    + apply bool_decide_eq_false in Hsemi.
      specialize (IH (anchor_step v t)).
      rewrite anchor_step_seen, bool_decide_eq_false_2 in IH by done.
      destruct (anchor_step_cur v t Hsemi) as [Hc _]. rewrite Hc in IH.
      apply IH. apply Forall_app. split.
      * eapply Forall_impl; [exact Hcur|]. intros w Hw. by apply anchor_step_known.
      * destruct (token_word (anchor_seen v) t) as [w|] eqn:Hw; simpl; [|constructor].
        constructor; [|constructor]. by apply anchor_step_word.
Qed.

End AnchorWords.

Section Visible.

Lemma visible_nonempty s : visible s = true -> s <> EmptyString.
Proof. by destruct s. Qed.

Lemma visible_app s t : visible (s +:+ t) = visible s || visible t.
Proof.
  induction s as [|c s IH]; [done|].
  change (String c s +:+ t) with (String c (s +:+ t)).
  simpl. rewrite IH. by destruct (PyStr.isspace c).
Qed.

Lemma visible_lstrip s : visible (PyStr.lstrip_by PyStr.isspace s) = visible s.
Proof.
  induction s as [|c s IH]; [done|]. simpl.
  destruct (PyStr.isspace c) eqn:E; simpl; [done|]. by rewrite E.
Qed.

Lemma visible_rstrip s : visible (PyStr.rstrip_by PyStr.isspace s) = visible s.
Proof.
  induction s as [|c s IH]; [done|]. simpl.
  destruct (PyStr.rstrip_by PyStr.isspace s) as [|d r] eqn:Er.
  - simpl in IH. rewrite <- IH.
    destruct (PyStr.isspace c) eqn:E; simpl; by rewrite ?E.
  - simpl in *. by rewrite IH.
Qed.

Lemma visible_strip s : visible (PyStr.strip s) = visible s.
Proof. unfold PyStr.strip. by rewrite visible_lstrip, visible_rstrip. Qed.

Lemma visible_join sep ws :
  Exists (fun w => visible w = true) ws -> visible (PyStr.join sep ws) = true.
Proof.
  induction ws as [|w ws IH]; intros H; [by inversion H|].
  cbn [PyStr.join]. destruct ws as [|w' ws'].
  - inversion H as [? ? Hw|? ? Hw]; [done|by inversion Hw].
  - rewrite !visible_app. inversion H as [? ? Hw|? ? Hw].
    + by rewrite Hw.
    + rewrite (IH Hw). by rewrite !orb_true_r.
Qed.

Lemma close_meaning_visible ws :
  Exists (fun w => visible w = true) ws -> close_meaning ws <> EmptyString.
Proof.
  intros H. apply visible_nonempty. unfold close_meaning.
  rewrite visible_strip. by apply visible_join.
Qed.

End Visible.

Section MeaningCount.

Lemma filter_length_le {A} (f : A -> bool) l : length (List.filter f l) <= length l.
Proof. induction l as [|x l IH]; simpl; [lia|]. destruct (f x); simpl; lia. Qed.

Lemma filter_length_all {A} (f : A -> bool) l :
  length (List.filter f l) = length l <-> Forall (fun x => f x = true) l.
Proof.
  induction l as [|x l IH]; simpl.
  - split; [constructor|done].
  - pose proof (filter_length_le f l). destruct (f x) eqn:E; simpl.
    + split.
      * intros [= H']. constructor; [done|]. by apply IH.
      * intros H'. inversion H'; subst. f_equal. by apply IH.
    + split; [lia|]. intros H'. inversion H'; subst. congruence.
Qed.

Lemma nonempty_true {A} (l : list A) : PyStr.nonempty l = true <-> l <> [].
Proof. by destruct l. Qed.

End MeaningCount.

(** C1, as stated, fails: the line [a;;b] has two semicolon tokens, and
    [parse_anchor_line] returns two meanings for it, not three (the
    semicolon met while the in-progress group is empty adds nothing). *)
Lemma C1_counterexample :
  count_semi (Re.findall_tokens "a;;b") = 2
  /\ meanings_of (parse_anchor_line "a;;b") = ["a"; "b"]
  /\ length (meanings_of (parse_anchor_line "a;;b")) <> 2 + 1.
Proof. by vm_compute. Qed.

(** C1, amended: for every anchor line with exactly [k] semicolon tokens the
    tokens fall into [k+1] meaning groups, [parse_anchor_line] returns one
    meaning for each group that has a word (the anchor or a synonym), in
    order; so the meanings list has length at most [k+1], and exactly [k+1]
    if and only if none of the groups is empty. *)
Theorem C1_meanings_length (line : string) (k : nat) :
  count_semi (Re.findall_tokens line) = k ->
  let mgroups := word_groups false [] (Re.findall_tokens line) in
  length mgroups = k + 1
  /\ meanings_of (parse_anchor_line line) =
       map close_meaning (List.filter PyStr.nonempty mgroups)
  /\ length (meanings_of (parse_anchor_line line)) <= k + 1
  /\ (length (meanings_of (parse_anchor_line line)) = k + 1
      <-> Forall (fun g => g <> []) mgroups).
Proof.
  intros Hk mgroups.
  assert (Hlen : length mgroups = k + 1).
  { unfold mgroups. by rewrite word_groups_length, Hk. }
  assert (Hm : meanings_of (parse_anchor_line line) =
               map close_meaning (List.filter PyStr.nonempty mgroups)).
  { apply parse_anchor_line_meanings. }
  split; [done|]. split; [done|].
  rewrite Hm, length_map, <- Hlen. split.
  - apply filter_length_le.
  - rewrite filter_length_all. apply Forall_proper; [|done].
    intros g. apply nonempty_true.
Qed.

Lemma C1_meanings_length_witness :
  count_semi (Re.findall_tokens "obscure cover; unclear opaque esoteric; unknown") = 2
  /\ length (meanings_of
       (parse_anchor_line "obscure cover; unclear opaque esoteric; unknown")) <= 2 + 1.
Proof.
  split; [reflexivity|].
  apply (C1_meanings_length "obscure cover; unclear opaque esoteric; unknown" 2).
  reflexivity.
Defined.

(** C9, as stated, fails: the line [<>] is one bare token, the anchor read
    off it is the empty string, and the meanings list holds the empty
    string. *)
Lemma C9_counterexample :
  Re.findall_tokens "<>" = ["<>"]
  /\ parse_anchor_line "<>" = (Some EmptyString, [], [], [EmptyString])
  /\ In EmptyString (meanings_of (parse_anchor_line "<>")).
Proof. vm_compute. auto. Qed.

(** C9, amended: a semicolon met while the in-progress meaning group is
    empty changes nothing, and an empty in-progress group at the end of the
    line adds no meaning; so for every anchor line each returned meaning is
    the joined and stripped text of a non-empty group of words, each the
    anchor or a synonym.  The meaning is a non-empty string whenever the
    anchor and the synonyms all have a character that is not whitespace. *)
Theorem C9_meanings_from_nonempty_groups (line : string) :
  (forall v, v_cur_meaning v = [] -> anchor_step v ";" = v)
  /\ (forall v, v_cur_meaning v = [] -> meanings_of (anchor_finish v) = v_meanings v)
  /\ Forall (fun m => exists ws, ws <> [] /\ m = close_meaning ws
               /\ Forall (fun w => anchor_of (parse_anchor_line line) = Some w
                                   \/ In w (synonyms_of (parse_anchor_line line))) ws)
       (meanings_of (parse_anchor_line line))
  /\ ((forall w, anchor_of (parse_anchor_line line) = Some w -> visible w = true) ->
      Forall (fun w => visible w = true) (synonyms_of (parse_anchor_line line)) ->
      Forall (fun m => m <> EmptyString) (meanings_of (parse_anchor_line line))).
Proof.
  assert (H3 : Forall (fun m => exists ws, ws <> [] /\ m = close_meaning ws
               /\ Forall (fun w => anchor_of (parse_anchor_line line) = Some w
                                   \/ In w (synonyms_of (parse_anchor_line line))) ws)
       (meanings_of (parse_anchor_line line))).
  { rewrite parse_anchor_line_meanings.
    pose proof (word_groups_known (Re.findall_tokens line) anchor_vars_init
                  (List.Forall_nil _)) as Hk.
    change (anchor_seen anchor_vars_init) with false in Hk.
    change (v_cur_meaning anchor_vars_init) with (@nil string) in Hk.
    induction Hk as [|g gs Hg Hgs IH]; simpl; [constructor|].
    destruct g as [|w g]; simpl; [exact IH|].
    constructor; [|exact IH].
    exists (w :: g). split; [done|]. split; [done|]. exact Hg. }
  split; [|split; [|split; [exact H3|]]].
  - intros v Hv. unfold anchor_step. rewrite bool_decide_eq_true_2 by done.
    by rewrite Hv.
  - intros v Hv. unfold meanings_of, anchor_finish. simpl. by rewrite Hv.
  - intros Ha Hs. eapply Forall_impl; [exact H3|].
    intros m (ws & Hne & -> & Hws). apply close_meaning_visible.
    destruct ws as [|w ws]; [done|]. apply Exists_cons_hd.
    inversion Hws as [|? ? [Hw|Hw] _]; subst.
    + by apply Ha.
    + rewrite List.Forall_forall in Hs. by apply Hs.
Qed.

Lemma C9_meanings_from_nonempty_groups_witness :
  Forall (fun m => m <> EmptyString)
    (meanings_of (parse_anchor_line "obscure cover; ; unclear <not clear> !plain;")).
Proof.
  apply (C9_meanings_from_nonempty_groups "obscure cover; ; unclear <not clear> !plain;").
  - intros w [= <-]. reflexivity.
  - vm_compute. repeat constructor.
Defined.

Section Antonyms.

Lemma anchor_step_agree v v' t :
  agree v v' -> agree (anchor_step v t) (anchor_step v' t).
Proof.
  unfold agree, anchor_step. intros (Ha & Hs & Hm & Hc).
  rewrite Ha, Hs, Hm, Hc. repeat case_match; simpl; auto.
Qed.

Lemma fold_agree ts : forall v v',
  agree v v' -> agree (fold_left anchor_step ts v) (fold_left anchor_step ts v').
Proof.
  induction ts as [|t ts IH]; intros v v' H; [done|].
  cbn [fold_left]. by apply IH, anchor_step_agree.
Qed.

Lemma anchor_step_antonyms v t x :
  In x (v_antonyms v) -> In x (v_antonyms (anchor_step v t)).
Proof.
  unfold anchor_step. repeat case_match; simpl; rewrite ?in_app_iff; auto.
Qed.

Lemma fold_antonyms ts : forall v x,
  In x (v_antonyms v) -> In x (v_antonyms (fold_left anchor_step ts v)).
Proof.
  induction ts as [|t ts IH]; intros v x H; [done|].
  cbn [fold_left]. by apply IH, anchor_step_antonyms.
Qed.

Lemma fold_seen ts : forall v,
  anchor_seen v = true \/ Exists (fun u => u <> ";") ts ->
  anchor_seen (fold_left anchor_step ts v) = true.
Proof.
  induction ts as [|t ts IH]; intros v [H|H]; [done|by inversion H| |].
  - cbn [fold_left]. apply IH. left. rewrite anchor_step_seen, H. by case_match.
  - cbn [fold_left]. apply IH. rewrite anchor_step_seen.
    inversion H as [? ? Ht|? ? Hts]; subst.
    + left. by rewrite bool_decide_eq_false_2.
    + by right.
Qed.

(** A token that starts with [!], met after the anchor is set, is added
    to the antonyms and changes nothing else. *)
Lemma anchor_step_bang v t :
  anchor_seen v = true -> PyStr.startswith t "!" = true ->
  anchor_step v t =
    AnchorVars (v_anchor v) (v_synonyms v) (v_antonyms v ++ [PyStr.slice_1 t])
      (v_meanings v) (v_cur_meaning v).
Proof.
  unfold anchor_seen, anchor_step. intros Hseen Hbang.
  destruct (bool_decide (t = ";")) eqn:Hsemi.
  - apply bool_decide_eq_true in Hsemi. subst t. discriminate.
  - destruct (v_anchor v); [|discriminate]. by rewrite Hbang.
Qed.

End Antonyms.

(** C2, as stated, fails: on the line [!hot cold] the first token is [!hot];
    it becomes the anchor, [hot] is not among the antonyms, and its text is
    part of the meaning. *)
Lemma C2_counterexample :
  Re.findall_tokens "!hot cold" = ["!hot"; "cold"]
  /\ parse_anchor_line "!hot cold" = (Some "hot", ["cold"], [], ["hot cold"])
  /\ ~ In "hot" (antonyms_of (parse_anchor_line "!hot cold")).
Proof. vm_compute. auto. Qed.

(** C2, amended: for every anchor line and every token of the form [!X] on
    it that comes after the first token other than a semicolon (that first
    token becomes the anchor), [X] is in the returned antonyms list, and the
    token adds nothing to any meaning: the anchor, the synonyms and the
    meanings are those of the token sequence without it. *)
Theorem C2_antonym_only (line : string) (pre post : list string) (t : string) :
  Re.findall_tokens line = pre ++ t :: post ->
  PyStr.startswith t "!" = true ->
  Exists (fun u => u <> ";") pre ->
  In (PyStr.slice_1 t) (antonyms_of (parse_anchor_line line))
  /\ meanings_of (parse_anchor_line line) = meanings_of (parse_tokens (pre ++ post))
  /\ synonyms_of (parse_anchor_line line) = synonyms_of (parse_tokens (pre ++ post))
  /\ anchor_of (parse_anchor_line line) = anchor_of (parse_tokens (pre ++ post)).
Proof.
  intros Hline Hbang Hpre. unfold parse_anchor_line. rewrite Hline.
  unfold parse_tokens. rewrite !fold_left_app. cbn [fold_left].
  set (v1 := fold_left anchor_step pre anchor_vars_init).
  assert (Hseen : anchor_seen v1 = true) by (apply fold_seen; by right).
  rewrite (anchor_step_bang v1 t Hseen Hbang).
  set (v2 := AnchorVars _ _ _ _ _).
  assert (Hag : agree (fold_left anchor_step post v2) (fold_left anchor_step post v1)).
  { apply fold_agree. by repeat split. }
  destruct Hag as (Ha & Hs & Hm & Hc). split; [|split; [|split]].
  - unfold antonyms_of, anchor_finish. simpl. apply fold_antonyms.
    unfold v2. simpl. rewrite in_app_iff. right. by left.
  - unfold meanings_of, anchor_finish. simpl. by rewrite Hm, Hc.
  - unfold synonyms_of, anchor_finish. simpl. exact Hs.
  - unfold anchor_of, anchor_finish. simpl. exact Ha.
Qed.

Lemma C2_antonym_only_witness :
  In "murky" (antonyms_of (parse_anchor_line "clear lucid !murky; plain"))
  /\ meanings_of (parse_anchor_line "clear lucid !murky; plain") =
       meanings_of (parse_tokens (["clear"; "lucid"] ++ [";"; "plain"])).
Proof.
  pose proof (C2_antonym_only "clear lucid !murky; plain"
                ["clear"; "lucid"] [";"; "plain"] "!murky") as H.
  destruct H as (H1 & H2 & _).
  - reflexivity.
  - reflexivity.
  - apply Exists_cons_hd. discriminate.
  - split; [exact H1|exact H2].
Defined.

(** ** The tokenizer *)

Section Tokenizer.
Import PyStr Re.

Lemma char_eqb_eq c d : char_eqb c d = true <-> c = d.
Proof. unfold char_eqb. apply bool_decide_eq_true. Qed.

Lemma char_eqb_sym c d : char_eqb c d = char_eqb d c.
Proof. unfold char_eqb. apply bool_decide_ext. naive_solver. Qed.

Lemma take_while_all p s : all_chars p (take_while p s) = true.
Proof.
  induction s as [|c s IH]; [done|]. simpl.
  destruct (p c) eqn:E; simpl; [|done]. by rewrite E.
Qed.

Lemma alt_angle_raw s t : alt_angle s = Some t -> raw_token t.
Proof.
  destruct s as [|c s']; [done|]. simpl.
  destruct (take_while not_gt s') as [|b body] eqn:Eb; [done|].
  destruct (drop_while not_gt s') as [|e r]; [done|].
  destruct (char_eqb c "<") eqn:Ec; [|done].
  destruct (char_eqb e ">") eqn:Ee; [|done]. simpl.
  apply char_eqb_eq in Ec, Ee. subst c e. intros [= <-].
  apply raw_marker; [done|]. rewrite <- Eb. apply take_while_all.
Qed.

Lemma alt_bang_raw s t : alt_bang s = Some t -> raw_token t.
Proof.
  destruct s as [|c s']; [done|]. simpl.
  destruct (take_while word_char s') as [|b w] eqn:Ew; [done|].
  destruct (char_eqb c "!") eqn:Ec; [|done].
  apply char_eqb_eq in Ec. subst c. intros [= <-].
  apply raw_antonym; [done|]. rewrite <- Ew. apply take_while_all.
Qed.

Lemma alt_word_raw s t : alt_word s = Some t -> raw_token t.
Proof.
  unfold alt_word.
  destruct (take_while word_char s) as [|b w] eqn:Ew; [done|].
  intros [= <-]. apply raw_word; [done|]. rewrite <- Ew. apply take_while_all.
Qed.

Lemma alt_semi_raw s t : alt_semi s = Some t -> raw_token t.
Proof.
  destruct s as [|c s']; [done|]. simpl.
  destruct (char_eqb c ";"); [|done]. intros [= <-]. apply raw_semi.
Qed.

Lemma match_token_raw s t : match_token s = Some t -> raw_token t.
Proof.
  unfold match_token.
  destruct (alt_angle s) eqn:E1; [intros [= <-]; by eapply alt_angle_raw|].
  destruct (alt_bang s) eqn:E2; [intros [= <-]; by eapply alt_bang_raw|].
  destruct (alt_word s) eqn:E3; [intros [= <-]; by eapply alt_word_raw|].
  apply alt_semi_raw.
Qed.

Lemma findall_from_raw s : forall skip, Forall raw_token (findall_from skip s).
Proof.
  induction s as [|c s IH]; intros skip; [constructor|].
  cbn [findall_from]. destruct skip as [|k]; [|apply IH].
  destruct (match_token (String c s)) as [t|] eqn:E; [|apply IH].
  constructor; [by eapply match_token_raw|apply IH].
Qed.

Lemma findall_from_skip s : forall n,
  findall_from n s = findall_from 0 (slice_from n s).
Proof.
  induction s as [|c s IH]; intros [|k]; try done.
  cbn [findall_from slice_from]. apply IH.
Qed.

Lemma raw_token_nonempty t : raw_token t -> t <> EmptyString.
Proof. by destruct 1. Qed.

(** The scan of [re.findall], one match at a time: a match at the start of
    the text gives a token and the scan goes on right after it; where
    nothing matches, the scan goes on one character further. *)
Lemma findall_tokens_unfold c s :
  findall_tokens (String c s) =
    match match_token (String c s) with
    | Some t => t :: findall_tokens (slice_from (String.length t) (String c s))
    | None => findall_tokens s
    end.
Proof.
  unfold findall_tokens. cbn [findall_from].
  destruct (match_token (String c s)) as [t|] eqn:E; [|done].
  pose proof (raw_token_nonempty t (match_token_raw _ _ E)) as Ht.
  destruct t as [|d t]; [done|]. cbn [String.length slice_from].
  by rewrite Nat.sub_succ, Nat.sub_0_r, findall_from_skip.
Qed.





End Tokenizer.




(** ** The block scanner *)

Section Scanner.

Lemma drop_cons_inv {A} (lines : list A) i l rest :
  drop i lines = l :: rest ->
  lines !! i = Some l /\ drop (S i) lines = rest /\ i < length lines.
Proof.
  intros H.
  assert (Hl : lines !! i = Some l).
  { replace i with (i + 0) by lia. by rewrite <- lookup_drop, H. }
  split; [done|]. split.
  - rewrite (drop_S _ _ _ Hl) in H. by injection H.
  - by eapply lookup_lt_Some.
Qed.

Lemma getitem_Some lines i l : lines !! i = Some l -> getitem lines i = Done l.
Proof. unfold getitem. by intros ->. Qed.

Lemma until_close_all close ls :
  Forall (fun l => PyStr.startswith (PyStr.strip l) close = false) ls ->
  until_close close ls = ls.
Proof.
  induction 1 as [|l ls Hl _ IH]; [done|]. simpl. by rewrite Hl, IH.
Qed.

Lemma until_close_length close ls : length (until_close close ls) <= length ls.
Proof.
  induction ls as [|l ls IH]; simpl; [lia|].
  destruct (PyStr.startswith _ _); simpl; lia.
Qed.

(** The inner loop of a derived block stops at the first closing line, or
    at the end of the lines, and has read no index out of range. *)
Lemma block_loop_spec rest : forall fuel lines i block_lines,
  drop i lines = rest -> length rest < fuel ->
  block_loop fuel lines i block_lines =
    Done (i + length (until_close "}" rest),
          block_lines ++ map PyStr.strip (until_close "}" rest)).
Proof.
  induction rest as [|l rest IH]; intros fuel lines i bl Hdrop Hfuel;
    (destruct fuel as [|fuel]; [lia|]); cbn [block_loop].
  - apply drop_nil_inv in Hdrop.
    rewrite bool_decide_eq_false_2 by lia. simpl.
    by rewrite Nat.add_0_r, app_nil_r.
  - apply drop_cons_inv in Hdrop as (Hl & Hrest & Hi).
    rewrite bool_decide_eq_true_2 by done.
    rewrite (getitem_Some _ _ _ Hl). cbn [mbind outcome_bind until_close].
    destruct (PyStr.startswith (PyStr.strip l) "}").
    + simpl. by rewrite Nat.add_0_r, app_nil_r.
    + rewrite (IH fuel lines (S i) _ Hrest) by (simpl in Hfuel; lia).
      simpl. do 2 f_equal; [lia|]. by rewrite <- app_assoc.
Qed.

Lemma context_loop_spec rest : forall fuel lines i context_lines,
  drop i lines = rest -> length rest < fuel ->
  context_loop fuel lines i context_lines =
    Done (i + length (until_close "]" rest),
          context_lines ++ map context_text (until_close "]" rest)).
Proof.
  induction rest as [|l rest IH]; intros fuel lines i cl Hdrop Hfuel;
    (destruct fuel as [|fuel]; [lia|]); cbn [context_loop].
  - apply drop_nil_inv in Hdrop.
    rewrite bool_decide_eq_false_2 by lia. simpl.
    by rewrite Nat.add_0_r, app_nil_r.
  - apply drop_cons_inv in Hdrop as (Hl & Hrest & Hi).
    rewrite bool_decide_eq_true_2 by done.
    rewrite (getitem_Some _ _ _ Hl). cbn [mbind outcome_bind until_close].
    destruct (PyStr.startswith (PyStr.strip l) "]").
    + simpl. by rewrite Nat.add_0_r, app_nil_r.
    + rewrite (IH fuel lines (S i) _ Hrest) by (simpl in Hfuel; lia).
      simpl. do 2 f_equal; [lia|]. by rewrite <- app_assoc.
Qed.

Lemma block_loop_at lines i :
  block_loop (S (length lines)) lines (S i) [] =
    Done (S i + length (until_close "}" (drop (S i) lines)),
          map PyStr.strip (until_close "}" (drop (S i) lines))).
Proof.
  rewrite (block_loop_spec (drop (S i) lines)); [done|done|].
  rewrite length_drop. lia.
Qed.

Lemma context_loop_at lines i :
  context_loop (S (length lines)) lines (S i) [] =
    Done (S i + length (until_close "]" (drop (S i) lines)),
          map context_text (until_close "]" (drop (S i) lines))).
Proof.
  rewrite (context_loop_spec (drop (S i) lines)); [done|done|].
  rewrite length_drop. lia.
Qed.

(** The outer loop ends with a result from every index on, given one
    iteration for each line that is left and one more. *)
Lemma scan_loop_done fuel : forall lines i derived_blocks contexts,
  length lines - i < fuel ->
  exists r, scan_loop fuel lines i derived_blocks contexts = Done r.
Proof.
  induction fuel as [|fuel IH]; intros lines i dbs ctxs Hfuel; [lia|].
  cbn [scan_loop]. destruct (bool_decide (i < length lines)) eqn:Hi.
  - apply bool_decide_eq_true in Hi.
    destruct (lookup_lt_is_Some_2 lines i Hi) as [l Hl].
    rewrite (getitem_Some _ _ _ Hl). cbn [mbind outcome_bind].
    destruct (PyStr.startswith (PyStr.strip l) "{").
    + rewrite block_loop_at. cbn [mbind outcome_bind]. apply IH. lia.
    + destruct (PyStr.startswith (PyStr.strip l) "[").
      * rewrite context_loop_at. cbn [mbind outcome_bind]. apply IH. lia.
      * apply IH. lia.
  - by eexists.
Qed.

Lemma parse_blocks_and_contexts_done lines :
  exists r, parse_blocks_and_contexts lines = Done r.
Proof. apply scan_loop_done. lia. Qed.

Lemma scan_loop_end fuel lines i derived_blocks contexts :
  length lines <= i ->
  scan_loop (S fuel) lines i derived_blocks contexts = Done (derived_blocks, contexts).
Proof. intros H. cbn [scan_loop]. by rewrite bool_decide_eq_false_2 by lia. Qed.

Lemma startswith_bracket_not_brace s :
  PyStr.startswith s "[" = true -> PyStr.startswith s "{" = false.
Proof.
  destruct s as [|c s]; [done|]. cbn [PyStr.startswith].
  destruct (PyStr.char_eqb c "[") eqn:E; [|done].
  apply char_eqb_eq in E. by subst c.
Qed.

End Scanner.

Section UnclosedBlocks.

(** At a line that opens a derived block which no later line closes, the
    inner loop runs to the end of the lines and the outer loop ends. *)
Lemma scan_loop_unclosed_block lines i l derived_blocks contexts fuel :
  lines !! i = Some l ->
  PyStr.startswith (PyStr.strip l) "{" = true ->
  Forall (fun l' => PyStr.startswith (PyStr.strip l') "}" = false)
    (drop (S i) lines) ->
  length lines - i < fuel ->
  block_loop (S (length lines)) lines (S i) [] =
    Done (length lines, map PyStr.strip (drop (S i) lines))
  /\ scan_loop fuel lines i derived_blocks contexts =
      Done (if PyStr.nonempty (drop (S i) lines)
            then derived_blocks ++
                 [parse_derived_block (map PyStr.strip (drop (S i) lines))]
            else derived_blocks,
            contexts).
Proof.
intros Hl Hopen Hclose Hfuel.
pose proof (lookup_lt_Some _ _ _ Hl) as Hi.
assert (Hloop : block_loop (S (length lines)) lines (S i) [] =
          Done (length lines, map PyStr.strip (drop (S i) lines))).
{ rewrite block_loop_at, until_close_all by done.
  rewrite length_drop. do 2 f_equal. lia. }
split; [done|].
destruct fuel as [|fuel]; [lia|]. cbn [scan_loop].
rewrite bool_decide_eq_true_2 by done.
rewrite (getitem_Some _ _ _ Hl). cbn [mbind outcome_bind].
rewrite Hopen, Hloop. cbn [mbind outcome_bind].
destruct fuel as [|fuel]; [lia|].
rewrite scan_loop_end by lia.
by destruct (drop (S i) lines).
Qed.

Lemma scan_loop_unclosed_context lines i l derived_blocks contexts fuel :
  lines !! i = Some l ->
  PyStr.startswith (PyStr.strip l) "[" = true ->
  Forall (fun l' => PyStr.startswith (PyStr.strip l') "]" = false)
    (drop (S i) lines) ->
  length lines - i < fuel ->
  context_loop (S (length lines)) lines (S i) [] =
    Done (length lines, map context_text (drop (S i) lines))
  /\ scan_loop fuel lines i derived_blocks contexts =
      Done (derived_blocks, contexts ++ map context_text (drop (S i) lines)).
Proof.
intros Hl Hopen Hclose Hfuel.
pose proof (lookup_lt_Some _ _ _ Hl) as Hi.
assert (Hloop : context_loop (S (length lines)) lines (S i) [] =
          Done (length lines, map context_text (drop (S i) lines))).
{ rewrite context_loop_at, until_close_all by done.
  rewrite length_drop. do 2 f_equal. lia. }
split; [done|].
destruct fuel as [|fuel]; [lia|]. cbn [scan_loop].
rewrite bool_decide_eq_true_2 by done.
rewrite (getitem_Some _ _ _ Hl). cbn [mbind outcome_bind].
rewrite (startswith_bracket_not_brace _ Hopen), Hopen, Hloop.
cbn [mbind outcome_bind].
destruct fuel as [|fuel]; [lia|].
by rewrite scan_loop_end by lia.
Qed.

End UnclosedBlocks.

(** ** The root-derivation parser *)

Section DerivedBlock.

Lemma derived_words_of_filter root ws :
  derived_words_of root ws =
    map (fun w => mkDerivedWord w root) (List.filter PyStr.truthy ws).
Proof.
  induction ws as [|w ws IH]; [done|]. simpl.
  destruct (PyStr.truthy w); simpl; by rewrite IH.
Qed.


End DerivedBlock.




(** ** The corpus loader and the indices *)

Section Loader.

Lemma dict_words_append k x d r :
  dict_words (dict_append k x d) r =
    if decide (k = r) then dict_words d r ++ [x] else dict_words d r.
Proof.
  unfold dict_words, dict_append. rewrite lookup_insert.
  case_decide; by subst.
Qed.

Lemma dict_append_prefix k x d r :
  dict_words d r `prefix_of` dict_words (dict_append k x d) r.
Proof. rewrite dict_words_append. case_decide; [by apply prefix_app_r|done]. Qed.

Lemma prefix_In {A} (l1 l2 : list A) x : l1 `prefix_of` l2 -> In x l1 -> In x l2.
Proof. intros [k ->] H. apply in_app_iff. by left. Qed.

Lemma fold_index_prefix dws : forall d r,
  dict_words d r `prefix_of` dict_words (fold_left index_derived dws d) r.
Proof.
  induction dws as [|dw dws IH]; intros d r; [done|].
  cbn [fold_left]. etrans; [|apply IH]. apply dict_append_prefix.
Qed.

Lemma fold_index_indexed dws : forall d,
  derived_indexed (fold_left index_derived dws d) dws.
Proof.
  induction dws as [|dw dws IH]; intros d dw' Hin; [by inversion Hin|].
  cbn [fold_left]. destruct Hin as [<-|Hin]; [|by apply IH].
  eapply prefix_In; [apply fold_index_prefix|].
  unfold index_derived. rewrite dict_words_append, decide_True by done.
  apply in_app_iff. right. by left.
Qed.

Lemma add_block_fst a s b : (add_block a s b).1 = group_add_block s.1 b.
Proof. by destruct b as [[root root_meaning] dws]. Qed.

Lemma add_block_snd a s b :
  (add_block a s b).2 = fold_left index_derived b.2 (dict_append b.1.1 a s.2).
Proof. by destruct b as [[root root_meaning] dws]. Qed.

Lemma add_block_prefix a s b r :
  dict_words s.2 r `prefix_of` dict_words (add_block a s b).2 r.
Proof.
  rewrite add_block_snd. etrans; [|apply fold_index_prefix].
  apply dict_append_prefix.
Qed.

Lemma derived_indexed_mono d d' dws :
  (forall r, dict_words d r `prefix_of` dict_words d' r) ->
  derived_indexed d dws -> derived_indexed d' dws.
Proof. intros Hp H dw Hin. eapply prefix_In; [apply Hp|]. by apply H. Qed.

Lemma group_indexed_mono a g d d' :
  (forall r, dict_words d r `prefix_of` dict_words d' r) ->
  group_indexed a g d -> group_indexed a g d'.
Proof.
  intros Hp [Hr Hd]. split.
  - intros rr Hin. eapply prefix_In; [apply Hp|]. by apply Hr.
  - by eapply derived_indexed_mono.
Qed.

Lemma add_block_indexed a s b :
  group_indexed a s.1 s.2 -> group_indexed a (add_block a s b).1 (add_block a s b).2.
Proof.
  intros H.
  apply (group_indexed_mono a s.1 s.2 (add_block a s b).2) in H;
    [|intros r; apply add_block_prefix].
  destruct H as [Hr Hd]. rewrite add_block_fst. split.
  - intros rr Hin. cbn [group_add_block g_roots] in Hin.
    apply in_app_iff in Hin as [Hin|[<-|[]]]; [by apply Hr|].
    rewrite add_block_snd. eapply prefix_In; [apply fold_index_prefix|].
    cbn [rr_root]. rewrite dict_words_append, decide_True by done.
    apply in_app_iff. right. by left.
  - intros dw Hin. cbn [group_add_block g_derived] in Hin.
    apply in_app_iff in Hin as [Hin|Hin]; [by apply Hd|].
    rewrite add_block_snd. by apply fold_index_indexed.
Qed.

Lemma fold_add_block a bs : forall s,
  let s' := fold_left (add_block a) bs s in
  s'.1 = fold_left group_add_block bs s.1
  /\ (forall r, dict_words s.2 r `prefix_of` dict_words s'.2 r)
  /\ (group_indexed a s.1 s.2 -> group_indexed a s'.1 s'.2).
Proof.
  induction bs as [|b bs IH]; intros s; [done|].
  cbn [fold_left]. destruct (IH (add_block a s b)) as (H1 & H2 & H3).
  split; [|split].
  - by rewrite H1, add_block_fst.
  - intros r. etrans; [apply add_block_prefix|apply H2].
  - intros H. by apply H3, add_block_indexed.
Qed.

Lemma fold_group_add_block_anchor bs : forall g,
  g_anchor (fold_left group_add_block bs g) = g_anchor g.
Proof. induction bs as [|b bs IH]; intros g; [done|]. cbn [fold_left]. by rewrite IH. Qed.

(** One group text: the record does not depend on the state of the
    parser, the anchor index takes it under its anchor, and the root
    index only grows, by what the group adds. *)
Lemma parse_group_spec self group :
  match group_record group with
  | None => parse_group self group = Done self
  | Some gd =>
      exists rd,
        parse_group self group =
          Done (mkGREParser (groups self ++ [gd])
                  (<[g_anchor gd := gd]> (anchor_dict self)) rd)
        /\ (forall r, dict_words (root_dict self) r `prefix_of` dict_words rd r)
        /\ group_indexed (g_anchor gd) gd rd
  end.
Proof.
  unfold group_record, parse_group.
  destruct (group_lines group) as [|anchor_line rest]; [done|].
  destruct (parse_anchor_line anchor_line) as [[[a syn] ant] mean].
  destruct (parse_blocks_and_contexts_done rest) as [[dbs ctxs] ->].
  cbn [mbind outcome_bind].
  destruct (fold_add_block a dbs (mkGroup a syn ant mean [] [] ctxs, root_dict self))
    as (H1 & H2 & H3).
  destruct (fold_left (add_block a) dbs _) as [gd rd]. simpl in H1, H2, H3.
  rewrite <- H1, H1, fold_group_add_block_anchor. cbn [g_anchor].
  rewrite <- H1. exists rd. split; [done|]. split; [exact H2|].
  apply H3. split; [intros rr []|intros dw []].
Qed.

Lemma parse_group_done self group : exists self', parse_group self group = Done self'.
Proof.
  pose proof (parse_group_spec self group) as H.
  destruct (group_record group); [destruct H as (rd & -> & _)|]; by eexists.
Qed.

Lemma parse_group_prefix self group self' r :
  parse_group self group = Done self' ->
  root_words self r `prefix_of` root_words self' r.
Proof.
  pose proof (parse_group_spec self group) as H.
  destruct (group_record group).
  - destruct H as (rd & -> & Hp & _). intros [= <-]. apply Hp.
  - rewrite H. by intros [= <-].
Qed.

Lemma parse_groups_done gs : forall self, exists self', parse_groups self gs = Done self'.
Proof.
  induction gs as [|g gs IH]; intros self; [by eexists|].
  cbn [parse_groups]. destruct (parse_group_done self g) as [s ->].
  cbn [mbind outcome_bind]. apply IH.
Qed.

Lemma parse_groups_snoc gs : forall self g final,
  parse_groups self (gs ++ [g]) = Done final ->
  exists s, parse_groups self gs = Done s /\ parse_group s g = Done final.
Proof.
  induction gs as [|g' gs IH]; intros self g final.
  - cbn [app parse_groups]. destruct (parse_group self g) as [s| |] eqn:E; [|done..].
    cbn [mbind outcome_bind]. intros [= <-]. by exists self.
  - cbn [app parse_groups]. destruct (parse_group self g') as [s| |]; [|done..].
    cbn [mbind outcome_bind]. apply IH.
Qed.

Lemma parse_groups_prefix gs : forall self final r,
  parse_groups self gs = Done final ->
  root_words self r `prefix_of` root_words final r.
Proof.
  induction gs as [|g gs IH]; intros self final r.
  - by intros [= <-].
  - cbn [parse_groups]. destruct (parse_group self g) as [s| |] eqn:E; [|done..].
    cbn [mbind outcome_bind]. intros H. etrans; [|by eapply IH].
    by eapply parse_group_prefix.
Qed.

Lemma parse_groups_other_anchor k gs : forall self final,
  Forall (fun g => forall d, group_record g = Some d -> g_anchor d <> k) gs ->
  parse_groups self gs = Done final ->
  anchor_dict final !! k = anchor_dict self !! k.
Proof.
  induction gs as [|g gs IH]; intros self final Hall.
  - by intros [= <-].
  - inversion Hall as [|? ? Hg Hgs]; subst.
    cbn [parse_groups]. pose proof (parse_group_spec self g) as H.
    destruct (group_record g) as [gd|].
    + destruct H as (rd & -> & _). cbn [mbind outcome_bind]. intros Hf.
      rewrite (IH _ _ Hgs Hf). cbn [anchor_dict].
      rewrite lookup_insert_ne; [done|]. by apply Hg.
    + rewrite H. cbn [mbind outcome_bind]. by apply IH.
Qed.

Lemma fold_index_untouched dws : forall d r,
  ~ In r (map (fun dw => Some (dw_root dw)) dws) ->
  dict_words (fold_left index_derived dws d) r = dict_words d r.
Proof.
  induction dws as [|dw dws IH]; intros d r Hr; [done|].
  cbn [fold_left]. rewrite IH by (intros H; apply Hr; by right).
  unfold index_derived. rewrite dict_words_append, decide_False; [done|].
  intros <-. apply Hr. by left.
Qed.

Lemma add_block_untouched a s b r :
  ~ mentions_root r (group_add_block s.1 b) ->
  dict_words (add_block a s b).2 r = dict_words s.2 r.
Proof.
  unfold mentions_root. cbn [group_add_block g_roots g_derived].
  rewrite !map_app, !in_app_iff. intros Hr.
  rewrite add_block_snd, fold_index_untouched by tauto.
  rewrite dict_words_append, decide_False; [done|].
  intros <-. apply Hr. left. right. by left.
Qed.

Lemma group_add_block_mentions r g b :
  mentions_root r g -> mentions_root r (group_add_block g b).
Proof.
  unfold mentions_root. cbn [group_add_block g_roots g_derived].
  rewrite !map_app, !in_app_iff. tauto.
Qed.

Lemma fold_group_add_block_mentions r bs : forall g,
  mentions_root r g -> mentions_root r (fold_left group_add_block bs g).
Proof.
  induction bs as [|b bs IH]; intros g H; [done|].
  cbn [fold_left]. by apply IH, group_add_block_mentions.
Qed.

Lemma fold_add_block_untouched a r bs : forall s,
  ~ mentions_root r (fold_left group_add_block bs s.1) ->
  dict_words (fold_left (add_block a) bs s).2 r = dict_words s.2 r.
Proof.
  induction bs as [|b bs IH]; intros s Hr; [done|].
  cbn [fold_left] in *. rewrite IH by (by rewrite add_block_fst).
  apply add_block_untouched. intros H. apply Hr.
  by apply fold_group_add_block_mentions.
Qed.

(** A group that does not refer to a root leaves its words as they are. *)
Lemma parse_group_untouched self group self' r :
  (forall d, group_record group = Some d -> ~ mentions_root r d) ->
  parse_group self group = Done self' ->
  root_words self' r = root_words self r.
Proof.
  unfold group_record, parse_group, root_words.
  destruct (group_lines group) as [|anchor_line rest]; [by intros _ [= <-]|].
  destruct (parse_anchor_line anchor_line) as [[[a syn] ant] mean].
  destruct (parse_blocks_and_contexts_done rest) as [[dbs ctxs] ->].
  cbn [mbind outcome_bind]. intros Hr.
  pose proof (fold_add_block_untouched a r dbs
                (mkGroup a syn ant mean [] [] ctxs, root_dict self)) as Hu.
  destruct (fold_left (add_block a) dbs _) as [gd rd].
  intros [= <-]. cbn [root_dict]. apply Hu. by apply Hr.
Qed.

Lemma parse_groups_untouched r gs : forall self final,
  Forall (fun g => forall d, group_record g = Some d -> ~ mentions_root r d) gs ->
  parse_groups self gs = Done final ->
  root_words final r = root_words self r.
Proof.
  induction gs as [|g gs IH]; intros self final Hall.
  - by intros [= <-].
  - inversion Hall as [|? ? Hg Hgs]; subst. cbn [parse_groups].
    destruct (parse_group self g) as [s| |] eqn:E; [|done..].
    cbn [mbind outcome_bind]. intros Hf.
    rewrite (IH _ _ Hgs Hf). by eapply parse_group_untouched.
Qed.

End Loader.

(** C3: when two groups with the same anchor string are loaded, the anchor
    lookup afterwards finds exactly the record of the later group (and
    [query_anchor] prints that record), while the anchor of the earlier
    group is still in the root index under each of its roots, and each of
    its derived words under its root; the words recorded for a root before
    a load step are a prefix of those recorded after it, so no step removes
    an entry. *)
Theorem C3_last_write_wins (self s1 s2 final : GREParser)
    (before between after : list string) (g1 g2 a : string) (d1 d2 : Group) :
  group_record g1 = Some d1 -> g_anchor d1 = Some a ->
  group_record g2 = Some d2 -> g_anchor d2 = Some a ->
  Forall (fun g => forall d, group_record g = Some d -> g_anchor d <> Some a) after ->
  parse_groups self (before ++ [g1]) = Done s1 ->
  parse_groups s1 (between ++ [g2]) = Done s2 ->
  parse_groups s2 after = Done final ->
  anchor_dict final !! Some a = Some d2
  /\ query_anchor final a =
       query_anchor (mkGREParser [d2] (<[Some a := d2]> ∅) ∅) a
  /\ (forall rr, In rr (g_roots d1) -> In (Some a) (root_words final (rr_root rr)))
  /\ (forall dw, In dw (g_derived d1) ->
        In (Some (dw_word dw)) (root_words final (Some (dw_root dw))))
  /\ (forall r, root_words s1 r `prefix_of` root_words final r)
  /\ (forall st g st' r,
        parse_group st g = Done st' -> root_words st r `prefix_of` root_words st' r).
Proof.
  intros Hr1 Ha1 Hr2 Ha2 Hafter H1 H2 H3.
  apply parse_groups_snoc in H1 as (s0 & _ & H1).
  apply parse_groups_snoc in H2 as (s1' & H2' & H2).
  pose proof (parse_group_spec s0 g1) as Hg1. rewrite Hr1 in Hg1.
  destruct Hg1 as (rd1 & Hg1 & _ & Hidx). rewrite Hg1 in H1.
  injection H1 as <-. rewrite Ha1 in Hidx.
  pose proof (parse_group_spec s1' g2) as Hg2. rewrite Hr2 in Hg2.
  destruct Hg2 as (rd2 & Hg2 & _). rewrite Hg2 in H2. injection H2 as <-.
  assert (Hlookup : anchor_dict final !! Some a = Some d2).
  { rewrite (parse_groups_other_anchor _ _ _ _ Hafter H3). cbn [anchor_dict].
    rewrite Ha2. apply lookup_insert_eq. }
  assert (Hprefix : forall r,
    dict_words rd1 r `prefix_of` root_words final r).
  { intros r. etrans; [|by eapply parse_groups_prefix].
    etrans; [|eapply (parse_group_prefix s1' g2); by rewrite Hg2].
    by apply (parse_groups_prefix _ _ _ r) in H2'. }
  split; [done|]. split.
  { unfold query_anchor. cbn [anchor_dict]. by rewrite Hlookup, lookup_insert_eq. }
  destruct Hidx as [Hroots Hderived]. split; [|split; [|split]].
  - intros rr Hin. eapply prefix_In; [apply Hprefix|]. by apply Hroots.
  - intros dw Hin. eapply prefix_In; [apply Hprefix|]. by apply Hderived.
  - exact Hprefix.
  - intros st g st' r Hst. by eapply parse_group_prefix.
Qed.

Lemma C3_last_write_wins_witness :
  anchor_dict
    (loaded (parse_groups GREParser_init
       [unlines ["clear lucid"; "{"; "(spec): to see"; "spectacle"; "}"];
        "clear plain"; "run dash"]))
    !! Some "clear"
  = Some (mkGroup (Some "clear") ["plain"] [] ["clear plain"] [] [] [])
  /\ In (Some "spectacle")
       (root_words
          (loaded (parse_groups GREParser_init
             [unlines ["clear lucid"; "{"; "(spec): to see"; "spectacle"; "}"];
              "clear plain"; "run dash"]))
          (Some "spec")).
Proof.
  pose proof (C3_last_write_wins GREParser_init
    (loaded (parse_groups GREParser_init
       [unlines ["clear lucid"; "{"; "(spec): to see"; "spectacle"; "}"]]))
    (loaded (parse_groups GREParser_init
       [unlines ["clear lucid"; "{"; "(spec): to see"; "spectacle"; "}"];
        "clear plain"]))
    (loaded (parse_groups GREParser_init
       [unlines ["clear lucid"; "{"; "(spec): to see"; "spectacle"; "}"];
        "clear plain"; "run dash"]))
    [] [] ["run dash"]
    (unlines ["clear lucid"; "{"; "(spec): to see"; "spectacle"; "}"])
    "clear plain" "clear"
    (mkGroup (Some "clear") ["lucid"] [] ["clear lucid"]
       [mkRootRef (Some "spec") (Some "to see")]
       [mkDerivedWord "spectacle" "spec"] [])
    (mkGroup (Some "clear") ["plain"] [] ["clear plain"] [] [] [])) as H.
  destruct H as (H1 & _ & _ & H4 & _).
  - reflexivity.
  - reflexivity.
  - reflexivity.
  - reflexivity.
  - constructor; [|constructor]. intros d [= <-]. discriminate.
  - reflexivity.
  - reflexivity.
  - reflexivity.
  - split; [exact H1|].
    apply (H4 (mkDerivedWord "spectacle" "spec")). by left.
Defined.

(** ** The queries *)

Section Queries.

Lemma query_root_words self r :
  query_root self r =
    if decide (root_words self (Some r) = []) then None
    else Some (list_to_set (root_words self (Some r))).
Proof.
  unfold query_root, root_words, dict_words.
  destruct (default [] (root_dict self !! Some r)) as [|w ws] eqn:E.
  - by rewrite decide_True by done.
  - rewrite (decide_False (P := _ :: _ = [])) by done.
    rewrite decide_False; [done|].
    intros Hempty. assert (w ∈ (∅ : gset (option string))) as Hw; [|set_solver].
    rewrite <- Hempty. set_solver.
Qed.

Lemma parse_group_loaded self group :
  parse_group self group = Done (loaded (parse_group self group)).
Proof. by destruct (parse_group_done self group) as [s ->]. Qed.

End Queries.

(** C5: for every state of the parser and every root string, [query_root]
    reports that nothing was found exactly when the root is absent from
    [root_dict] or maps to the empty list; otherwise it reports the set of
    the words recorded for the root, each once. *)
Theorem C5_query_root (self : GREParser) (r : string) :
  (query_root self r = None <->
     root_dict self !! Some r = None \/ root_dict self !! Some r = Some [])
  /\ (forall ws, root_dict self !! Some r = Some ws -> ws <> [] ->
        query_root self r = Some (list_to_set ws)
        /\ forall w, w ∈ (list_to_set ws : gset (option string)) <-> In w ws).
Proof.
  rewrite query_root_words. unfold root_words, dict_words. split.
  - destruct (root_dict self !! Some r) as [ws|]; simpl.
    + destruct (decide (ws = [])) as [->|E].
      * split; [by right|done].
      * split; [done|]. by intros [[=]|[= ->]].
    + split; [by left|done].
  - intros ws -> Hne. simpl. rewrite decide_False by done. split; [done|].
    intros w. rewrite elem_of_list_to_set. apply list_elem_of_In.
Qed.

Lemma C5_query_root_witness :
  query_root (mkGREParser [] ∅ {[Some "spec" := [Some "clear"; Some "clear"]]}) "spec"
  = Some (list_to_set [Some "clear"; Some "clear"]).
Proof.
  destruct (C5_query_root
              (mkGREParser [] ∅ {[Some "spec" := [Some "clear"; Some "clear"]]})
              "spec") as [_ H].
  apply (H [Some "clear"; Some "clear"]).
  - reflexivity.
  - discriminate.
Defined.

(** C4: after loading a corpus in which a group with the anchor [clear] has
    the root block with the lines [(spec): to see], [spectacle],
    [spectator], and no other group, loaded before or after it, refers to
    the root [spec], the root lookup for [spec] returns exactly the set of
    [clear], [spectacle] and [spectator]. *)
Theorem C4_root_lookup (self : GREParser) (group anchor_line : string)
    (after : list string) :
  group_lines group =
    anchor_line :: ["{"; "(spec): to see"; "spectacle"; "spectator"; "}"] ->
  anchor_of (parse_anchor_line anchor_line) = Some "clear" ->
  root_dict self !! Some "spec" = None ->
  Forall (fun g => forall d, group_record g = Some d ->
                   ~ mentions_root (Some "spec") d) after ->
  exists final,
    parse_groups self (group :: after) = Done final
    /\ query_root final "spec" =
         Some {[Some "clear"; Some "spectacle"; Some "spectator"]}.
Proof.
  intros Hlines Hanchor Hfresh Hafter.
  assert (Hwords : root_words (loaded (parse_group self group)) (Some "spec") =
                   [Some "clear"; Some "spectacle"; Some "spectator"]).
  { unfold parse_group. rewrite Hlines.
    destruct (parse_anchor_line anchor_line) as [[[a syn] ant] mean].
    cbn in Hanchor. subst a.
    change (parse_blocks_and_contexts
              ["{"; "(spec): to see"; "spectacle"; "spectator"; "}"])
      with (Done ([(Some "spec", Some "to see",
                    [mkDerivedWord "spectacle" "spec";
                     mkDerivedWord "spectator" "spec"])], @nil string)).
    cbn [mbind outcome_bind fold_left add_block loaded fst snd].
    unfold root_words, index_derived. cbn [root_dict dw_root dw_word].
    rewrite !dict_words_append.
    rewrite !(decide_True (P := Some "spec" = Some "spec")) by done.
    unfold dict_words. by rewrite Hfresh. }
  destruct (parse_groups_done after (loaded (parse_group self group)))
    as [final Hfinal].
  exists final. split.
  - cbn [parse_groups]. rewrite parse_group_loaded. exact Hfinal.
  - rewrite query_root_words.
    rewrite (parse_groups_untouched _ _ _ _ Hafter Hfinal), Hwords.
    reflexivity.
Qed.

Lemma C4_root_lookup_witness :
  exists final,
    parse (unlines ["clear lucid"; "{"; "(spec): to see"; "spectacle"; "spectator"; "}";
                    ""; "run dash sprint"])
      = Done final
    /\ query_root final "spec" =
         Some {[Some "clear"; Some "spectacle"; Some "spectator"]}.
Proof.
  change (parse _) with
    (parse_groups GREParser_init
       [unlines ["clear lucid"; "{"; "(spec): to see"; "spectacle"; "spectator"; "}"];
        "run dash sprint"]).
  apply (C4_root_lookup GREParser_init _ "clear lucid" ["run dash sprint"]).
  - reflexivity.
  - reflexivity.
  - reflexivity.
  - constructor; [|constructor]. intros d [= <-] [[]|[]].
Defined.

(** C8: a group whose lines after the anchor line are the context block
    [[], the quoted sentence [He was obdurate.], []] gives a record whose
    contexts list is exactly that sentence without its quotes; the record
    is the last of [groups] and the entry of its anchor in [anchor_dict]. *)
Theorem C8_context_block (self : GREParser) (group anchor_line : string) :
  group_lines group = anchor_line :: ["["; quoted "He was obdurate."; "]"] ->
  parse_blocks_and_contexts ["["; quoted "He was obdurate."; "]"] =
    Done ([], ["He was obdurate."])
  /\ exists self' g,
       parse_group self group = Done self'
       /\ last (groups self') = Some g
       /\ anchor_dict self' !! anchor_of (parse_anchor_line anchor_line) = Some g
       /\ g_roots g = [] /\ g_derived g = []
       /\ g_contexts g = ["He was obdurate."].
Proof.
  intros Hlines. split; [reflexivity|].
  unfold parse_group. rewrite Hlines.
  destruct (parse_anchor_line anchor_line) as [[[a syn] ant] mean].
  change (parse_blocks_and_contexts ["["; quoted "He was obdurate."; "]"])
    with (Done (@nil block, ["He was obdurate."])).
  cbn [mbind outcome_bind fold_left].
  eexists _, _. split; [reflexivity|]. cbn [groups anchor_dict anchor_of fst snd].
  split; [apply last_snoc|]. split; [apply lookup_insert_eq|]. done.
Qed.

Lemma C8_context_block_witness :
  exists self' g,
    parse_group GREParser_init
      (unlines ["obdurate stubborn"; "["; quoted "He was obdurate."; "]"]) = Done self'
    /\ last (groups self') = Some g
    /\ g_contexts g = ["He was obdurate."].
Proof.
  destruct (C8_context_block GREParser_init
              (unlines ["obdurate stubborn"; "["; quoted "He was obdurate."; "]"])
              "obdurate stubborn") as (_ & self' & g & Hp & Hl & _ & _ & _ & Hc).
  - reflexivity.
  - by exists self', g.
Defined.

(** * Further properties of the code *)

#[local] Set Warnings "-clear-no-such-hyp".

(** ** Stripping *)

Section StripFacts.
Import PyStr.

Lemma lstrip_by_head p s c : head_char (lstrip_by p s) = Some c -> p c = false.
Proof.
induction s as [|d s IH]; [done|]. simpl.
destruct (p d) eqn:E; [done|]. simpl. by intros [= <-].
Qed.

Lemma last_char_cons c s : s <> EmptyString -> last_char (String c s) = last_char s.
Proof. by destruct s. Qed.

Lemma rstrip_by_last p s c : last_char (rstrip_by p s) = Some c -> p c = false.
Proof.
induction s as [|d s IH]; [done|]. simpl.
destruct (rstrip_by p s) as [|e r] eqn:Er.
- destruct (p d) eqn:E; [done|]. simpl. by intros [= <-].
- rewrite last_char_cons by done. exact IH.
Qed.

Lemma lstrip_by_last p s c :
  last_char (lstrip_by p s) = Some c -> last_char s = Some c.
Proof.
induction s as [|d s IH]; [done|]. cbn [lstrip_by].
destruct (p d); [|done]. intros H.
destruct s as [|e s]; [by simpl in H|]. rewrite last_char_cons by done. by apply IH.
Qed.

Lemma strip_by_ends p s c :
  head_char (lstrip_by p (rstrip_by p s)) = Some c
  \/ last_char (lstrip_by p (rstrip_by p s)) = Some c ->
  p c = false.
Proof.
intros [H|H].
- by eapply lstrip_by_head.
- eapply rstrip_by_last. by eapply lstrip_by_last.
Qed.

Lemma rstrip_blank s : visible s = false -> rstrip_by isspace s = EmptyString.
Proof.
induction s as [|c s IH]; [done|]. simpl. intros H.
apply orb_false_iff in H as [Hc Hs]. rewrite (IH Hs).
apply negb_false_iff in Hc. by rewrite Hc.
Qed.

Lemma strip_blank s : visible s = false -> strip s = EmptyString.
Proof. intros H. unfold strip. by rewrite rstrip_blank. Qed.

(** A stripped text is non-empty exactly when the text has a character that
    is not whitespace. *)
Lemma truthy_strip s : truthy (strip s) = visible s.
Proof.
destruct (visible s) eqn:E.
- rewrite <- visible_strip in E. by destruct (strip s).
- by rewrite strip_blank.
Qed.

Lemma append_cons c s t : String c s +:+ t = String c (s +:+ t).
Proof. reflexivity. Qed.

Lemma append_nil_r s : s +:+ EmptyString = s.
Proof. induction s as [|c s IH]; [done|]. by rewrite append_cons, IH. Qed.

Lemma append_length s t : String.length (s +:+ t) = String.length s + String.length t.
Proof.
induction s as [|c s IH]; [done|]. rewrite append_cons.
cbn [String.length]. by rewrite IH.
Qed.

Lemma append_assoc s t u : (s +:+ t) +:+ u = s +:+ (t +:+ u).
Proof. induction s as [|c s IH]; [done|]. by rewrite !append_cons, IH. Qed.

Lemma slice_from_append s t : slice_from (String.length s) (s +:+ t) = t.
Proof.
induction s as [|c s IH]; [by destruct t|]. rewrite append_cons.
cbn [String.length slice_from]. exact IH.
Qed.

Lemma keep_visible_append s t :
  keep_visible (s +:+ t) = keep_visible s +:+ keep_visible t.
Proof.
induction s as [|c s IH]; [done|]. rewrite append_cons. cbn [keep_visible].
destruct (isspace c); by rewrite ?append_cons, IH.
Qed.

Lemma keep_visible_empty s : keep_visible s = EmptyString <-> visible s = false.
Proof.
induction s as [|c s IH]; [done|]. simpl.
destruct (isspace c); simpl; [exact IH|]. split; discriminate.
Qed.

End StripFacts.

(** ** The tokenizer: what the scan keeps *)

Section TokenizerCoverage.
Import PyStr Re.

Lemma take_drop_while p s : take_while p s +:+ drop_while p s = s.
Proof.
induction s as [|c s IH]; [done|]. simpl.
destruct (p c); [|done]. by rewrite append_cons, IH.
Qed.

Lemma alt_angle_prefix s t : alt_angle s = Some t -> exists rest, s = t +:+ rest.
Proof.
destruct s as [|c s']; [done|]. simpl.
pose proof (take_drop_while not_gt s') as Htd.
destruct (take_while not_gt s') as [|b body]; [done|].
destruct (drop_while not_gt s') as [|e r]; [done|].
destruct (char_eqb c "<" && char_eqb e ">"); [|done].
intros [= <-]. exists r. rewrite <- Htd.
by rewrite !append_cons, append_assoc.
Qed.

Lemma alt_bang_prefix s t : alt_bang s = Some t -> exists rest, s = t +:+ rest.
Proof.
destruct s as [|c s']; [done|]. simpl.
pose proof (take_drop_while word_char s') as Htd.
destruct (take_while word_char s') as [|b w]; [done|].
destruct (char_eqb c "!"); [|done].
intros [= <-]. exists (drop_while word_char s').
rewrite append_cons. f_equal. by symmetry.
Qed.

Lemma alt_word_prefix s t : alt_word s = Some t -> exists rest, s = t +:+ rest.
Proof.
unfold alt_word. pose proof (take_drop_while word_char s) as Htd.
destruct (take_while word_char s) as [|b w]; [done|].
intros [= <-]. by exists (drop_while word_char s).
Qed.

Lemma alt_semi_prefix s t : alt_semi s = Some t -> exists rest, s = t +:+ rest.
Proof.
destruct s as [|c s']; [done|]. simpl.
destruct (char_eqb c ";") eqn:E; [|done]. apply char_eqb_eq in E. subst c.
intros [= <-]. by exists s'.
Qed.

(** A match is a prefix of the text it is tried on. *)
Lemma match_token_prefix s t : match_token s = Some t -> exists rest, s = t +:+ rest.
Proof.
unfold match_token.
destruct (alt_angle s) eqn:E1; [intros [= <-]; by eapply alt_angle_prefix|].
destruct (alt_bang s) eqn:E2; [intros [= <-]; by eapply alt_bang_prefix|].
destruct (alt_word s) eqn:E3; [intros [= <-]; by eapply alt_word_prefix|].
apply alt_semi_prefix.
Qed.

(** No alternative matches only at whitespace. *)
Lemma match_token_none c s : match_token (String c s) = None -> isspace c = true.
Proof.
unfold match_token.
destruct (alt_angle _); [done|]. destruct (alt_bang _); [done|].
unfold alt_word. simpl. unfold word_char at 1.
destruct (isspace c); [done|]. simpl.
destruct (char_eqb c ";"); simpl; done.
Qed.

Lemma raw_token_visible t : raw_token t -> visible t = true.
Proof.
destruct 1 as [body| w | w Hw Hall|]; try done.
destruct w as [|c w]; [done|]. simpl in *.
apply andb_true_iff in Hall as [Hc _]. unfold word_char in Hc.
apply andb_true_iff in Hc as [Hc _]. by rewrite Hc.
Qed.

Lemma findall_tokens_covers n : forall s,
  String.length s <= n ->
  keep_visible (concat_strings (findall_tokens s)) = keep_visible s.
Proof.
induction n as [|n IH]; intros s Hn.
- destruct s; [done|simpl in Hn; lia].
- destruct s as [|c s]; [done|]. rewrite findall_tokens_unfold.
  destruct (match_token (String c s)) as [t|] eqn:E.
  + destruct (match_token_prefix _ _ E) as [rest Hs].
    pose proof (raw_token_nonempty t (match_token_raw _ _ E)) as Ht.
    rewrite Hs, slice_from_append. cbn [concat_strings].
    rewrite !keep_visible_append, IH; [done|].
    apply (f_equal String.length) in Hs. rewrite append_length in Hs.
    destruct t; [done|]. simpl in Hs, Hn. lia.
  + rewrite IH by (simpl in Hn; lia). simpl.
    by rewrite (match_token_none _ _ E).
Qed.

End TokenizerCoverage.

(** The tokenizer loses whitespace only: the characters of the tokens that
    are not whitespace are, in order, those of the line.  So a line has no
    token exactly when it is blank. *)
Theorem X_tokens_cover_line (line : string) :
  keep_visible (concat_strings (Re.findall_tokens line)) = keep_visible line
  /\ (Re.findall_tokens line = [] <-> visible line = false).
Proof.
assert (Hcov := findall_tokens_covers (String.length line) line (le_n _)).
split; [done|]. split.
- intros Hnil. rewrite Hnil in Hcov. simpl in Hcov.
  by apply keep_visible_empty.
- intros Hblank. apply keep_visible_empty in Hblank. rewrite Hblank in Hcov.
  pose proof (findall_from_raw line 0) as Hraw.
  fold (Re.findall_tokens line) in Hraw.
  destruct (Re.findall_tokens line) as [|t ts]; [done|].
  inversion Hraw as [|? ? Ht _]; subst.
  apply keep_visible_empty in Hcov. cbn [concat_strings] in Hcov.
  rewrite visible_app, (raw_token_visible t Ht) in Hcov. done.
Qed.

(** ** The anchor-line parser: anchor, synonyms, antonyms *)

Section AnchorExact.

Lemma word_tokens_cons t ts :
  word_tokens (t :: ts) = if bool_decide (t = ";") then word_tokens ts else t :: word_tokens ts.
Proof. unfold word_tokens. simpl. by destruct (bool_decide (t = ";")). Qed.

Lemma anchor_step_semi_fields v :
  v_anchor (anchor_step v ";") = v_anchor v
  /\ v_synonyms (anchor_step v ";") = v_synonyms v
  /\ v_antonyms (anchor_step v ";") = v_antonyms v.
Proof.
unfold anchor_step. rewrite bool_decide_eq_true_2 by done.
by destruct (PyStr.nonempty _).
Qed.

Lemma anchor_step_first v t :
  t <> ";" -> v_anchor v = None ->
  v_anchor (anchor_step v t) = Some (PyStr.strip_chars "<>!" t)
  /\ v_synonyms (anchor_step v t) = v_synonyms v
  /\ v_antonyms (anchor_step v t) = v_antonyms v.
Proof.
intros Ht Hv. unfold anchor_step.
rewrite bool_decide_eq_false_2 by done. by rewrite Hv.
Qed.

Lemma anchor_step_later v t a :
  t <> ";" -> v_anchor v = Some a ->
  v_anchor (anchor_step v t) = Some a
  /\ v_synonyms (anchor_step v t) = v_synonyms v ++ option_list (token_word true t)
  /\ v_antonyms (anchor_step v t) =
       v_antonyms v ++ (if is_bang t then [PyStr.slice_1 t] else []).
Proof.
intros Ht Hv. unfold anchor_step, token_word, is_bang.
rewrite bool_decide_eq_false_2 by done. rewrite Hv. cbn [negb].
destruct (PyStr.startswith t "!"); [by rewrite !app_nil_r|].
destruct (PyStr.startswith t "<" && PyStr.endswith t ">"); by rewrite !app_nil_r.
Qed.

Lemma fold_fields ts : forall v,
  let final := fold_left anchor_step ts v in
  v_anchor final =
    match v_anchor v with
    | Some a => Some a
    | None => PyStr.strip_chars "<>!" <$> head (word_tokens ts)
    end
  /\ v_synonyms final =
       v_synonyms v ++ omap (token_word true) (later_tokens (anchor_seen v) ts)
  /\ v_antonyms final =
       v_antonyms v ++
       map PyStr.slice_1 (List.filter is_bang (later_tokens (anchor_seen v) ts)).
Proof.
induction ts as [|t ts IH]; intros v.
- cbn. unfold later_tokens, anchor_seen.
  destruct (v_anchor v); by rewrite !app_nil_r.
- cbn [fold_left]. cbn zeta in *. destruct (IH (anchor_step v t)) as (Ha & Hs & Hn).
  rewrite Ha, Hs, Hn, anchor_step_seen. clear Ha Hs Hn.
  unfold later_tokens. rewrite word_tokens_cons.
  destruct (bool_decide (t = ";")) eqn:Hsemi.
  + apply bool_decide_eq_true in Hsemi as ->.
    destruct (anchor_step_semi_fields v) as (-> & -> & ->). done.
  + apply bool_decide_eq_false in Hsemi. unfold anchor_seen.
    destruct (v_anchor v) as [a|] eqn:Hv.
    * destruct (anchor_step_later v t a Hsemi Hv) as (-> & -> & ->).
      split; [done|]. cbn [omap list_omap List.filter map].
      split.
      -- rewrite <- app_assoc. f_equal. by destruct (token_word true t).
      -- rewrite <- app_assoc. f_equal. by destruct (is_bang t).
    * destruct (anchor_step_first v t Hsemi Hv) as (-> & -> & ->). done.
Qed.

Lemma word_groups_concat ts : forall seen cur,
  concat (word_groups seen cur ts) =
    cur ++
    (if seen then omap (token_word true) (word_tokens ts)
     else match word_tokens ts with
          | [] => []
          | t :: later => PyStr.strip_chars "<>!" t :: omap (token_word true) later
          end).
Proof.
induction ts as [|t ts IH]; intros seen cur.
- cbn. destruct seen; by rewrite !app_nil_r.
- cbn [word_groups]. rewrite word_tokens_cons.
  destruct (bool_decide (t = ";")); cbn [concat].
  + by rewrite IH.
  + rewrite IH. rewrite <- app_assoc. f_equal.
    destruct seen; [|done].
    cbn [omap list_omap]. by destruct (token_word true t).
Qed.

Lemma word_tokens_nil ts : word_tokens ts = [] <-> Forall (fun t => t = ";") ts.
Proof.
induction ts as [|t ts IH]; [by split; [constructor|]|].
rewrite word_tokens_cons. destruct (bool_decide (t = ";")) eqn:E.
- apply bool_decide_eq_true in E. rewrite IH. split.
  + by constructor.
  + by inversion 1.
- apply bool_decide_eq_false in E. split; [done|]. by inversion 1.
Qed.

End AnchorExact.

(** The anchor is the first token that is not a semicolon, with the
    characters [<], [>] and [!] stripped from both ends; it is [None]
    exactly when every token of the line is a semicolon; and it neither
    starts nor ends with one of the three characters. *)
Theorem X_anchor_is_first_word (line : string) :
  anchor_of (parse_anchor_line line) =
    PyStr.strip_chars "<>!" <$> head (word_tokens (Re.findall_tokens line))
  /\ (anchor_of (parse_anchor_line line) = None
      <-> Forall (fun t => t = ";") (Re.findall_tokens line))
  /\ (forall a c, anchor_of (parse_anchor_line line) = Some a ->
        head_char a = Some c \/ last_char a = Some c ->
        PyStr.char_in c "<>!" = false).
Proof.
destruct (fold_fields (Re.findall_tokens line) anchor_vars_init) as (Ha & _).
assert (Hanchor : anchor_of (parse_anchor_line line) =
  PyStr.strip_chars "<>!" <$> head (word_tokens (Re.findall_tokens line))) by exact Ha.
split; [done|]. rewrite Hanchor. split.
- rewrite <- word_tokens_nil.
  destruct (word_tokens (Re.findall_tokens line)); by split.
- intros a c Hsome Hends.
  destruct (head (word_tokens (Re.findall_tokens line))) as [t|]; [|done].
  injection Hsome as <-.
  by apply (strip_by_ends (fun c => PyStr.char_in c "<>!") t c).
Qed.

(** The synonyms are the texts of the tokens after the anchor that do not
    start with [!], brackets removed, in order; and the words of the
    meaning groups, taken together in order, are the anchor followed by
    exactly these synonyms. *)
Theorem X_synonyms_are_meaning_words (line : string) :
  synonyms_of (parse_anchor_line line) =
    omap (token_word true) (tail (word_tokens (Re.findall_tokens line)))
  /\ concat (word_groups false [] (Re.findall_tokens line)) =
       option_list (anchor_of (parse_anchor_line line))
       ++ synonyms_of (parse_anchor_line line).
Proof.
destruct (fold_fields (Re.findall_tokens line) anchor_vars_init) as (Ha & Hs & _).
assert (Hsyn : synonyms_of (parse_anchor_line line) =
  omap (token_word true) (tail (word_tokens (Re.findall_tokens line)))) by exact Hs.
assert (Hanchor : anchor_of (parse_anchor_line line) =
  PyStr.strip_chars "<>!" <$> head (word_tokens (Re.findall_tokens line))) by exact Ha.
split; [done|]. rewrite word_groups_concat, Hsyn, Hanchor.
by destruct (word_tokens (Re.findall_tokens line)).
Qed.

(** The antonyms are the texts, without the leading [!], of the tokens
    after the anchor that start with [!], in order. *)
Theorem X_antonyms_exact (line : string) :
  antonyms_of (parse_anchor_line line) =
    map PyStr.slice_1
      (List.filter is_bang (tail (word_tokens (Re.findall_tokens line)))).
Proof.
destruct (fold_fields (Re.findall_tokens line) anchor_vars_init) as (_ & _ & Hn).
exact Hn.
Qed.

(** No meaning starts or ends with a whitespace character. *)
Theorem X_meanings_stripped (line : string) :
  Forall (fun m => forall c, head_char m = Some c \/ last_char m = Some c ->
                   PyStr.isspace c = false)
    (meanings_of (parse_anchor_line line)).
Proof.
rewrite parse_anchor_line_meanings. apply Forall_map.
apply Forall_forall. intros g _ c Hc.
by apply (strip_by_ends PyStr.isspace (PyStr.join " " g) c).
Qed.

(** ** The root-derivation parser: both branches *)

Section RootPattern.
Import PyStr Re.

Lemma head_char_take_while p s c :
  head_char (take_while p s) = Some c -> head_char s = Some c.
Proof. destruct s as [|d s]; [done|]. simpl. by destruct (p d). Qed.

Lemma head_char_drop_while p s c :
  head_char (drop_while p s) = Some c -> p c = false.
Proof.
induction s as [|d s IH]; [done|]. simpl.
destruct (p d) eqn:E; [done|]. simpl. by intros [= <-].
Qed.

Lemma take_while_append p s t :
  all_chars p s = true ->
  (forall c, head_char t = Some c -> p c = false) ->
  take_while p (s +:+ t) = s /\ drop_while p (s +:+ t) = t.
Proof.
intros Hs Ht. induction s as [|c s IH].
- destruct t as [|d t]; [done|]. simpl. by rewrite (Ht d).
- rewrite append_cons. simpl in *. apply andb_true_iff in Hs as [-> Hs].
  destruct (IH Hs) as [-> ->]. done.
Qed.

Lemma take_while_all_id p s : all_chars p s = true -> take_while p s = s.
Proof.
induction s as [|c s IH]; [done|]. simpl. intros H.
apply andb_true_iff in H as [-> H]. by rewrite IH.
Qed.

Lemma match_root_shape first root root_meaning :
  match_root first = Some (root, root_meaning) ->
  root <> EmptyString
  /\ all_chars not_rparen root = true
  /\ startswith first (String "(" (root +:+ "):")) = true
  /\ all_chars not_nl root_meaning = true
  /\ (forall c, head_char root_meaning = Some c -> isspace c = false).
Proof.
destruct first as [|c s1]; [done|]. cbn [match_root].
pose proof (take_drop_while not_rparen s1) as Htd.
pose proof (take_while_all not_rparen s1) as Hall.
destruct (take_while not_rparen s1) as [|b r] eqn:Er; [done|].
destruct (drop_while not_rparen s1) as [|e [|d s2]]; [done..|].
destruct (char_eqb c "(") eqn:Ec; [|done].
destruct (char_eqb e ")") eqn:Ee; [|done].
destruct (char_eqb d ":") eqn:Ed; [|done].
apply char_eqb_eq in Ec, Ee, Ed. subst c e d. cbn [andb].
intros [= <- <-]. split; [done|]. split; [done|]. split; [|split].
- rewrite <- Htd. clear. cbn [startswith]. unfold char_eqb at 1.
  rewrite bool_decide_eq_true_2 by done. cbn [andb].
  generalize (String b r). intros s. induction s as [|c s IH]; [by destruct s2|].
  rewrite !append_cons. cbn [startswith]. unfold char_eqb at 1.
  by rewrite bool_decide_eq_true_2.
- apply take_while_all.
- intros c Hc. apply head_char_take_while in Hc.
  by apply head_char_drop_while in Hc.
Qed.

End RootPattern.

(** For a block with a first line, in both branches: the derived words are
    the later lines that are not empty, in order, each with the returned
    root in its root field.  When the first line matches the pattern, the
    root is not empty and has no closing parenthesis, the line starts with
    the root in parentheses and a colon, and the root meaning has no
    newline and does not start with whitespace. *)
Theorem X_derived_block_shape (first : string) (rest : list string) :
  exists root root_meaning,
    parse_derived_block (first :: rest) =
      (Some root, Some root_meaning,
       map (fun w => mkDerivedWord w root) (List.filter PyStr.truthy rest))
    /\ Forall (fun dw => dw_word dw <> EmptyString /\ dw_root dw = root)
         (parse_derived_block (first :: rest)).2
    /\ (Re.match_root first = None -> root = first /\ root_meaning = EmptyString)
    /\ (is_Some (Re.match_root first) ->
        root <> EmptyString
        /\ all_chars Re.not_rparen root = true
        /\ PyStr.startswith first (String "(" (root +:+ "):")) = true
        /\ all_chars Re.not_nl root_meaning = true
        /\ (forall c, head_char root_meaning = Some c -> PyStr.isspace c = false)).
Proof.
assert (Hwords : forall root,
  Forall (fun dw => dw_word dw <> EmptyString /\ dw_root dw = root)
    (derived_words_of root rest)).
{ intros root. induction rest as [|w ws IH]; [constructor|]. simpl.
  destruct w; simpl; [exact IH|]. by constructor. }
cbn [parse_derived_block].
destruct (Re.match_root first) as [[root root_meaning]|] eqn:E.
- exists root, root_meaning. rewrite derived_words_of_filter.
  split; [done|]. split; [rewrite <- derived_words_of_filter; apply Hwords|].
  split; [done|]. intros _. by apply match_root_shape.
- exists first, EmptyString. rewrite derived_words_of_filter.
  split; [done|]. split; [rewrite <- derived_words_of_filter; apply Hwords|].
  split; [done|]. by intros [? [=]].
Qed.

(** Reading back a written root line: for a root that is not empty and has
    no closing parenthesis, and a meaning with no newline that does not
    start with whitespace, the line made of the root in parentheses, a
    colon, any whitespace and the meaning is parsed into that root and
    that meaning. *)
Theorem X_root_line_round_trip (root ws root_meaning : string) (rest : list string) :
  root <> EmptyString ->
  all_chars Re.not_rparen root = true ->
  all_chars PyStr.isspace ws = true ->
  all_chars Re.not_nl root_meaning = true ->
  (forall c, head_char root_meaning = Some c -> PyStr.isspace c = false) ->
  Re.match_root (String "(" (root +:+ "):" +:+ ws +:+ root_meaning)) =
    Some (root, root_meaning)
  /\ parse_derived_block
       (String "(" (root +:+ "):" +:+ ws +:+ root_meaning) :: rest) =
     (Some root, Some root_meaning,
      map (fun w => mkDerivedWord w root) (List.filter PyStr.truthy rest)).
Proof.
intros Hne Hroot Hws Hnl Hhead.
assert (Hm : Re.match_root (String "(" (root +:+ "):" +:+ ws +:+ root_meaning)) =
             Some (root, root_meaning)).
{ cbn [Re.match_root].
  destruct (take_while_append Re.not_rparen root ("):" +:+ ws +:+ root_meaning) Hroot)
    as [-> ->]; [by intros c [= <-]|].
  destruct root as [|b r]; [done|].
  change ("):" +:+ ws +:+ root_meaning) with
    (String ")" (String ":" (ws +:+ root_meaning))).
  cbn [PyStr.char_eqb andb]. unfold PyStr.char_eqb.
  rewrite !bool_decide_eq_true_2 by done. cbn [andb].
  destruct (take_while_append PyStr.isspace ws root_meaning Hws Hhead) as [_ ->].
  by rewrite take_while_all_id. }
split; [done|]. cbn [parse_derived_block]. rewrite Hm.
by rewrite derived_words_of_filter.
Qed.

Lemma X_root_line_round_trip_witness :
  Re.match_root "(spec):   to see" = Some ("spec", "to see").
Proof.
apply (X_root_line_round_trip "spec" "   " "to see" []).
- discriminate.
- reflexivity.
- reflexivity.
- reflexivity.
- intros c [= <-]. reflexivity.
Defined.

(** ** The block scanner as one pass *)

Section ScannerPass.

Lemma close_block_app derived_blocks block_lines :
  close_block derived_blocks block_lines =
    derived_blocks ++ close_block [] block_lines.
Proof. unfold close_block. destruct (PyStr.nonempty _); by rewrite ?app_nil_r. Qed.

Lemma scan_pass_in_block rest : forall block_lines derived_blocks contexts,
  scan_pass (InBlock block_lines) rest derived_blocks contexts =
    scan_pass Outside (drop (S (length (until_close "}" rest))) rest)
      (close_block derived_blocks
         (block_lines ++ map PyStr.strip (until_close "}" rest)))
      contexts.
Proof.
induction rest as [|l rest IH]; intros bl dbs ctxs.
- cbn. by rewrite app_nil_r.
- cbn [scan_pass until_close].
  destruct (PyStr.startswith (PyStr.strip l) "}").
  + cbn. by rewrite app_nil_r.
  + rewrite IH. cbn [length drop map]. by rewrite <- app_assoc.
Qed.

Lemma scan_pass_in_context rest : forall context_lines derived_blocks contexts,
  scan_pass (InContext context_lines) rest derived_blocks contexts =
    scan_pass Outside (drop (S (length (until_close "]" rest))) rest)
      derived_blocks
      (contexts ++ context_lines ++ map context_text (until_close "]" rest)).
Proof.
induction rest as [|l rest IH]; intros cl dbs ctxs.
- cbn. by rewrite app_nil_r.
- cbn [scan_pass until_close].
  destruct (PyStr.startswith (PyStr.strip l) "]").
  + cbn. by rewrite app_nil_r.
  + rewrite IH. cbn [length drop map]. by rewrite <- !app_assoc.
Qed.

(** The loops by index compute what the one pass computes. *)
Lemma scan_loop_pass fuel : forall lines i derived_blocks contexts,
  length lines - i < fuel ->
  scan_loop fuel lines i derived_blocks contexts =
    Done (scan_pass Outside (drop i lines) derived_blocks contexts).
Proof.
induction fuel as [|fuel IH]; intros lines i dbs ctxs Hfuel; [lia|].
cbn [scan_loop]. destruct (bool_decide (i < length lines)) eqn:Hi.
- apply bool_decide_eq_true in Hi.
  destruct (lookup_lt_is_Some_2 lines i Hi) as [l Hl].
  rewrite (getitem_Some _ _ _ Hl), (drop_S _ _ _ Hl).
  cbn [mbind outcome_bind scan_pass].
  destruct (PyStr.startswith (PyStr.strip l) "{").
  + rewrite block_loop_at. cbn [mbind outcome_bind].
    rewrite IH by lia. rewrite scan_pass_in_block, drop_drop.
    unfold close_block. cbn [app]. do 3 f_equal. lia.
  + destruct (PyStr.startswith (PyStr.strip l) "[").
    * rewrite context_loop_at. cbn [mbind outcome_bind].
      rewrite IH by lia. rewrite scan_pass_in_context, drop_drop.
      cbn [app]. do 3 f_equal. lia.
    * by rewrite IH by lia.
- apply bool_decide_eq_false in Hi. by rewrite drop_ge by lia.
Qed.

Lemma scan_pass_acc lines : forall mode derived_blocks contexts,
  scan_pass mode lines derived_blocks contexts =
    (derived_blocks ++ (scan_pass mode lines [] []).1,
     contexts ++ (scan_pass mode lines [] []).2).
Proof.
induction lines as [|l lines IH]; intros mode dbs ctxs.
- destruct mode; cbn; rewrite ?app_nil_r; [done| |done].
  by rewrite close_block_app.
- destruct mode as [|bl|cl]; cbn [scan_pass].
  + destruct (PyStr.startswith (PyStr.strip l) "{"); [apply IH|].
    destruct (PyStr.startswith (PyStr.strip l) "["); apply IH.
  + destruct (PyStr.startswith (PyStr.strip l) "}"); [|apply IH].
    rewrite IH, (IH Outside (close_block [] bl) []). cbn [fst snd app].
    by rewrite (close_block_app dbs), <- app_assoc.
  + destruct (PyStr.startswith (PyStr.strip l) "]"); [|apply IH].
    rewrite IH, (IH Outside [] ([] ++ cl)). cbn [fst snd app].
    by rewrite <- app_assoc.
Qed.

Lemma scan_pass_filler filler : forall lines derived_blocks contexts,
  Forall (fun l => PyStr.startswith (PyStr.strip l) "{" = false
                   /\ PyStr.startswith (PyStr.strip l) "[" = false) filler ->
  scan_pass Outside (filler ++ lines) derived_blocks contexts =
    scan_pass Outside lines derived_blocks contexts.
Proof.
induction filler as [|l filler IH]; intros lines dbs ctxs Hf; [done|].
inversion Hf as [|? ? [H1 H2] Hf']; subst.
cbn [app scan_pass]. rewrite H1, H2. by apply IH.
Qed.

Lemma scan_pass_body body : forall lines block_lines derived_blocks contexts,
  Forall (fun l => PyStr.startswith (PyStr.strip l) "}" = false) body ->
  scan_pass (InBlock block_lines) (body ++ lines) derived_blocks contexts =
    scan_pass (InBlock (block_lines ++ map PyStr.strip body)) lines
      derived_blocks contexts.
Proof.
induction body as [|l body IH]; intros lines bl dbs ctxs Hb.
- cbn. by rewrite app_nil_r.
- inversion Hb as [|? ? H1 Hb']; subst.
  cbn [app scan_pass map]. rewrite H1, IH by done. by rewrite <- app_assoc.
Qed.

Lemma scan_pass_context_body body : forall lines context_lines derived_blocks contexts,
  Forall (fun l => PyStr.startswith (PyStr.strip l) "]" = false) body ->
  scan_pass (InContext context_lines) (body ++ lines) derived_blocks contexts =
    scan_pass (InContext (context_lines ++ map context_text body)) lines
      derived_blocks contexts.
Proof.
induction body as [|l body IH]; intros lines cl dbs ctxs Hb.
- cbn. by rewrite app_nil_r.
- inversion Hb as [|? ? H1 Hb']; subst.
  cbn [app scan_pass map]. rewrite H1, IH by done. by rewrite <- app_assoc.
Qed.

Lemma parse_blocks_and_contexts_pass lines :
  parse_blocks_and_contexts lines = Done (scan_pass Outside lines [] []).
Proof.
unfold parse_blocks_and_contexts. rewrite scan_loop_pass by lia.
by rewrite drop_0.
Qed.

(** Where the scanner stands outside every block after a first part of the
    lines, it goes on from there with what it got from that part. *)
Lemma scan_pass_app_outside pre : forall mode lines derived_blocks contexts,
  scan_mode_after mode pre = Outside ->
  scan_pass mode (pre ++ lines) derived_blocks contexts =
    scan_pass Outside lines
      (scan_pass mode pre derived_blocks contexts).1
      (scan_pass mode pre derived_blocks contexts).2.
Proof.
induction pre as [|l pre IH]; intros mode lines dbs ctxs Hmode.
- cbn in Hmode. by subst mode.
- destruct mode as [|bl|cl]; cbn [app scan_pass scan_mode_after] in *;
    repeat case_match; by apply IH.
Qed.

Lemma parse_blocks_and_contexts_unclosed_block pre l rest derived_blocks contexts :
  scan_mode_after Outside pre = Outside ->
  parse_blocks_and_contexts pre = Done (derived_blocks, contexts) ->
  PyStr.startswith (PyStr.strip l) "{" = true ->
  Forall (fun l' => PyStr.startswith (PyStr.strip l') "}" = false) rest ->
  parse_blocks_and_contexts (pre ++ l :: rest) =
    Done (if PyStr.nonempty rest
          then derived_blocks ++ [parse_derived_block (map PyStr.strip rest)]
          else derived_blocks,
          contexts).
Proof.
intros Hmode Hpre Hopen Hclose.
rewrite parse_blocks_and_contexts_pass in Hpre. injection Hpre as Hpre.
rewrite parse_blocks_and_contexts_pass, scan_pass_app_outside, Hpre by done.
cbn [fst snd scan_pass]. rewrite Hopen.
rewrite <- (app_nil_r rest) at 1. rewrite scan_pass_body by done.
cbn [scan_pass app]. unfold close_block. f_equal. f_equal.
by destruct rest.
Qed.

Lemma parse_blocks_and_contexts_unclosed_context pre l rest derived_blocks contexts :
  scan_mode_after Outside pre = Outside ->
  parse_blocks_and_contexts pre = Done (derived_blocks, contexts) ->
  PyStr.startswith (PyStr.strip l) "[" = true ->
  Forall (fun l' => PyStr.startswith (PyStr.strip l') "]" = false) rest ->
  parse_blocks_and_contexts (pre ++ l :: rest) =
    Done (derived_blocks, contexts ++ map context_text rest).
Proof.
intros Hmode Hpre Hopen Hclose.
rewrite parse_blocks_and_contexts_pass in Hpre. injection Hpre as Hpre.
rewrite parse_blocks_and_contexts_pass, scan_pass_app_outside, Hpre by done.
cbn [fst snd scan_pass]. rewrite (startswith_bracket_not_brace _ Hopen), Hopen.
rewrite <- (app_nil_r rest) at 1. rewrite scan_pass_context_body by done.
cbn [scan_pass app]. done.
Qed.

End ScannerPass.

(** C10: the block scanner ends with a result on every list of lines, and
    reads no index out of range.  When the lines are a first part after
    which the scanner stands outside every block, a line that starts with
    [{], and lines of which none starts with [}], then
    [parse_blocks_and_contexts] returns the blocks of the first part
    followed by the block parsed from all the remaining lines, stripped (no
    block when no line remains), and the contexts of the first part;
    likewise for [[] and []], the remaining lines, stripped and without
    quotes at their ends, following the contexts of the first part.  In
    the loops: at such a line the inner loop captures every remaining line
    and stops with the index at the number of lines, and the outer loop
    ends there. *)
Theorem C10_scanner_total (lines : list string) :
  (exists r, parse_blocks_and_contexts lines = Done r)
  /\ (forall pre l rest derived_blocks contexts,
        lines = pre ++ l :: rest ->
        scan_mode_after Outside pre = Outside ->
        parse_blocks_and_contexts pre = Done (derived_blocks, contexts) ->
        PyStr.startswith (PyStr.strip l) "{" = true ->
        Forall (fun l' => PyStr.startswith (PyStr.strip l') "}" = false) rest ->
        parse_blocks_and_contexts lines =
          Done (if PyStr.nonempty rest
                then derived_blocks ++ [parse_derived_block (map PyStr.strip rest)]
                else derived_blocks,
                contexts))
  /\ (forall pre l rest derived_blocks contexts,
        lines = pre ++ l :: rest ->
        scan_mode_after Outside pre = Outside ->
        parse_blocks_and_contexts pre = Done (derived_blocks, contexts) ->
        PyStr.startswith (PyStr.strip l) "[" = true ->
        Forall (fun l' => PyStr.startswith (PyStr.strip l') "]" = false) rest ->
        parse_blocks_and_contexts lines =
          Done (derived_blocks, contexts ++ map context_text rest))
  /\ (forall i l derived_blocks contexts fuel,
        lines !! i = Some l ->
        PyStr.startswith (PyStr.strip l) "{" = true ->
        Forall (fun l' => PyStr.startswith (PyStr.strip l') "}" = false)
          (drop (S i) lines) ->
        length lines - i < fuel ->
        block_loop (S (length lines)) lines (S i) [] =
          Done (length lines, map PyStr.strip (drop (S i) lines))
        /\ scan_loop fuel lines i derived_blocks contexts =
            Done (if PyStr.nonempty (drop (S i) lines)
                  then derived_blocks ++
                       [parse_derived_block (map PyStr.strip (drop (S i) lines))]
                  else derived_blocks,
                  contexts))
  /\ (forall i l derived_blocks contexts fuel,
        lines !! i = Some l ->
        PyStr.startswith (PyStr.strip l) "[" = true ->
        Forall (fun l' => PyStr.startswith (PyStr.strip l') "]" = false)
          (drop (S i) lines) ->
        length lines - i < fuel ->
        context_loop (S (length lines)) lines (S i) [] =
          Done (length lines, map context_text (drop (S i) lines))
        /\ scan_loop fuel lines i derived_blocks contexts =
            Done (derived_blocks, contexts ++ map context_text (drop (S i) lines))).
Proof.
split; [apply parse_blocks_and_contexts_done|]. split; [|split; [|split]].
- intros pre l rest dbs ctxs -> Hmode Hpre Hopen Hclose.
  by apply parse_blocks_and_contexts_unclosed_block.
- intros pre l rest dbs ctxs -> Hmode Hpre Hopen Hclose.
  by apply parse_blocks_and_contexts_unclosed_context.
- intros i l dbs ctxs fuel. apply scan_loop_unclosed_block.
- intros i l dbs ctxs fuel. apply scan_loop_unclosed_context.
Qed.

Lemma C10_scanner_total_witness :
  parse_blocks_and_contexts
    ["["; "He was obdurate."; "]"; "filler"; "{"; "(spec): to see"; " spectacle"] =
    Done ([(Some "spec", Some "to see", [mkDerivedWord "spectacle" "spec"])],
          ["He was obdurate."]).
Proof.
destruct (C10_scanner_total
            ["["; "He was obdurate."; "]"; "filler"; "{"; "(spec): to see"; " spectacle"])
  as (_ & H & _).
apply (H ["["; "He was obdurate."; "]"; "filler"] "{"
         ["(spec): to see"; " spectacle"] [] ["He was obdurate."]).
- reflexivity.
- reflexivity.
- reflexivity.
- reflexivity.
- repeat constructor.
Defined.

(** The scanner, with its loops by index, computes for every list of lines
    what one pass from left to right computes that reads each line once in
    one of three modes: outside every block, inside a derived block,
    inside a context block. *)
Theorem X_scanner_one_pass (lines : list string) :
  parse_blocks_and_contexts lines = Done (scan_pass Outside lines [] []).
Proof. apply parse_blocks_and_contexts_pass. Qed.

(** The scanner goes through a group block by block.  Lines before a block
    that start with neither [{] nor [[] are skipped.  A derived block
    closed by a line that starts with [}] adds the block parsed from its
    stripped lines (nothing when it has no line) in front of the blocks of
    the lines after it; a context block closed by a line that starts with
    []] adds its lines, stripped and without quotes at their ends, in front
    of the contexts of the lines after it. *)
Theorem X_scanner_block_by_block (filler body post : list string)
    (opening closing : string) (derived_blocks : list block) (contexts : list string) :
  Forall (fun l => PyStr.startswith (PyStr.strip l) "{" = false
                   /\ PyStr.startswith (PyStr.strip l) "[" = false) filler ->
  parse_blocks_and_contexts post = Done (derived_blocks, contexts) ->
  parse_blocks_and_contexts filler = Done ([], [])
  /\ (PyStr.startswith (PyStr.strip opening) "{" = true ->
      Forall (fun l => PyStr.startswith (PyStr.strip l) "}" = false) body ->
      PyStr.startswith (PyStr.strip closing) "}" = true ->
      parse_blocks_and_contexts (filler ++ opening :: body ++ closing :: post) =
        Done (close_block [] (map PyStr.strip body) ++ derived_blocks, contexts))
  /\ (PyStr.startswith (PyStr.strip opening) "[" = true ->
      Forall (fun l => PyStr.startswith (PyStr.strip l) "]" = false) body ->
      PyStr.startswith (PyStr.strip closing) "]" = true ->
      parse_blocks_and_contexts (filler ++ opening :: body ++ closing :: post) =
        Done (derived_blocks, map context_text body ++ contexts)).
Proof.
intros Hfiller Hpost. rewrite parse_blocks_and_contexts_pass in Hpost.
injection Hpost as Hpost. rewrite !parse_blocks_and_contexts_pass.
split; [|split].
- rewrite <- (app_nil_r filler), scan_pass_filler by done. done.
- intros Hopen Hbody Hclose.
  rewrite scan_pass_filler by done. cbn [scan_pass]. rewrite Hopen.
  rewrite scan_pass_body by done. cbn [scan_pass app]. rewrite Hclose.
  rewrite scan_pass_acc, Hpost. cbn [fst snd app].
  by rewrite close_block_app.
- intros Hopen Hbody Hclose.
  rewrite scan_pass_filler by done. cbn [scan_pass].
  rewrite (startswith_bracket_not_brace _ Hopen), Hopen.
  rewrite scan_pass_context_body by done. cbn [scan_pass app]. rewrite Hclose.
  by rewrite scan_pass_acc, Hpost.
Qed.

Lemma X_scanner_block_by_block_witness :
  parse_blocks_and_contexts
    (["filler"] ++ "{" :: ["(spec): to see"; " spectacle "] ++
       "}" :: ["["; quoted "He was obdurate."; "]"]) =
    Done ([(Some "spec", Some "to see", [mkDerivedWord "spectacle" "spec"])],
          ["He was obdurate."]).
Proof.
destruct (X_scanner_block_by_block ["filler"] ["(spec): to see"; " spectacle "]
            ["["; quoted "He was obdurate."; "]"] "{" "}" [] ["He was obdurate."])
  as (_ & H & _).
- repeat constructor.
- reflexivity.
- apply H.
  + reflexivity.
  + repeat constructor.
  + reflexivity.
Defined.

(** ** The loaded corpus: groups and indices *)

Section Corpus.

Lemma derived_words_of_ok root ws :
  Forall (fun dw => dw_word dw <> EmptyString /\ dw_root dw = root)
    (derived_words_of root ws).
Proof.
induction ws as [|w ws IH]; [constructor|]. simpl.
destruct w; simpl; [exact IH|]. by constructor.
Qed.

Lemma close_block_ok derived_blocks block_lines :
  Forall block_ok derived_blocks ->
  Forall block_ok (close_block derived_blocks block_lines).
Proof.
intros H. unfold close_block. destruct block_lines as [|first rest]; [done|].
cbn [PyStr.nonempty]. apply Forall_app. split; [done|].
constructor; [|constructor]. by exists first, rest.
Qed.

Lemma scan_pass_ok lines : forall mode derived_blocks contexts,
  Forall block_ok derived_blocks ->
  Forall block_ok (scan_pass mode lines derived_blocks contexts).1.
Proof.
induction lines as [|l lines IH]; intros mode dbs ctxs H.
- destruct mode; cbn; [done| |done]. by apply close_block_ok.
- destruct mode; cbn [scan_pass]; repeat case_match; apply IH; try done.
  by apply close_block_ok.
Qed.

Lemma fold_group_add_block_fields bs : forall g,
  let g' := fold_left group_add_block bs g in
  g_anchor g' = g_anchor g
  /\ g_roots g' = g_roots g ++ map (fun b : block => mkRootRef b.1.1 b.1.2) bs
  /\ g_derived g' = g_derived g ++ concat (map (fun b : block => b.2) bs).
Proof.
induction bs as [|b bs IH]; intros g.
- cbn. by rewrite !app_nil_r.
- cbn [fold_left]. cbn zeta in *. destruct (IH (group_add_block g b)) as (-> & -> & ->).
  cbn [group_add_block g_anchor g_roots g_derived map concat].
  by rewrite <- !app_assoc.
Qed.

(** The two cases of one iteration of the loader. *)
Lemma parse_group_cases self group :
  (group_record group = None /\ parse_group self group = Done self)
  \/ (exists a syn ant mean dbs ctxs,
        let g0 := mkGroup a syn ant mean [] [] ctxs in
        Forall block_ok dbs
        /\ group_record group = Some (fold_left group_add_block dbs g0)
        /\ parse_group self group =
             Done (mkGREParser
                     (groups self ++ [fold_left group_add_block dbs g0])
                     (<[a := fold_left group_add_block dbs g0]> (anchor_dict self))
                     (fold_left (add_block a) dbs (g0, root_dict self)).2)).
Proof.
unfold group_record, parse_group.
destruct (group_lines group) as [|anchor_line rest]; [by left|]. right.
destruct (parse_anchor_line anchor_line) as [[[a syn] ant] mean].
rewrite parse_blocks_and_contexts_pass. cbn [mbind outcome_bind].
pose proof (scan_pass_ok rest Outside [] [] (List.Forall_nil _)) as Hok.
destruct (scan_pass Outside rest [] []) as [dbs ctxs]. cbn [fst] in Hok.
exists a, syn, ant, mean, dbs, ctxs. cbn zeta. split; [done|]. split; [done|].
destruct (fold_add_block a dbs (mkGroup a syn ant mean [] [] ctxs, root_dict self))
  as (H1 & _).
destruct (fold_left (add_block a) dbs _) as [gd rd]. cbn [fst snd] in *.
by rewrite H1.
Qed.

Lemma parse_groups_groups gs : forall self final,
  parse_groups self gs = Done final ->
  groups final = groups self ++ omap group_record gs.
Proof.
induction gs as [|g gs IH]; intros self final.
- intros [= <-]. cbn. by rewrite app_nil_r.
- cbn [parse_groups omap list_omap].
  destruct (parse_group_cases self g) as [[-> ->]|(a & syn & ant & mean & dbs & ctxs & H)].
  + cbn [mbind outcome_bind]. apply IH.
  + cbn zeta in H. destruct H as (_ & -> & ->). cbn [mbind outcome_bind].
    intros Hf. rewrite (IH _ _ Hf). cbn [groups]. by rewrite <- app_assoc.
Qed.

Lemma parse_loaded text : parse text = Done (loaded (parse text)).
Proof.
unfold parse.
by destruct (parse_groups_done (Re.split_blank (PyStr.strip text)) GREParser_init)
  as [s ->].
Qed.

Lemma groups_of_anchor_snoc k gs g :
  groups_of_anchor k (gs ++ [g]) =
    groups_of_anchor k gs ++ (if bool_decide (g_anchor g = k) then [g] else []).
Proof. unfold groups_of_anchor. by rewrite List.filter_app. Qed.

Lemma parse_group_anchor_index self group self' :
  (forall k, anchor_dict self !! k = last (groups_of_anchor k (groups self))) ->
  parse_group self group = Done self' ->
  forall k, anchor_dict self' !! k = last (groups_of_anchor k (groups self')).
Proof.
intros Hinv.
destruct (parse_group_cases self group)
  as [[_ ->]|(a & syn & ant & mean & dbs & ctxs & H)].
- by intros [= <-].
- cbn zeta in H. destruct H as (_ & _ & ->). intros [= <-] k.
  cbn [anchor_dict groups]. rewrite groups_of_anchor_snoc.
  destruct (fold_group_add_block_fields dbs (mkGroup a syn ant mean [] [] ctxs))
    as (Ha & _). cbn zeta in Ha. rewrite Ha. cbn [g_anchor].
  destruct (bool_decide (a = k)) eqn:E.
  + apply bool_decide_eq_true in E. subst k.
    by rewrite lookup_insert_eq, last_snoc.
  + apply bool_decide_eq_false in E.
    by rewrite lookup_insert_ne, app_nil_r.
Qed.

Lemma parse_groups_anchor_index gs : forall self final,
  (forall k, anchor_dict self !! k = last (groups_of_anchor k (groups self))) ->
  parse_groups self gs = Done final ->
  forall k, anchor_dict final !! k = last (groups_of_anchor k (groups final)).
Proof.
induction gs as [|g gs IH]; intros self final Hinv.
- by intros [= <-].
- cbn [parse_groups]. destruct (parse_group self g) as [s| |] eqn:E; [|done..].
  cbn [mbind outcome_bind]. apply IH. by eapply parse_group_anchor_index.
Qed.

Lemma last_In {A} (l : list A) x : last l = Some x -> In x l.
Proof.
intros H. apply list_elem_of_In. apply last_Some in H as [l' ->].
apply elem_of_app. right. by apply list_elem_of_singleton.
Qed.

Lemma groups_of_anchor_In k gs g :
  In g (groups_of_anchor k gs) <-> In g gs /\ g_anchor g = k.
Proof.
unfold groups_of_anchor. rewrite List.filter_In.
by rewrite bool_decide_eq_true.
Qed.

End Corpus.

(** Loading never fails: for every text [parse] ends with a parser, whose
    [groups] are the records of the group texts that have a line, in the
    order of the corpus.  A text with nothing but whitespace leaves the
    parser as [__init__] made it. *)
Theorem X_parse_total (text : string) :
  exists final,
    parse text = Done final
    /\ groups final = omap group_record (Re.split_blank (PyStr.strip text))
    /\ (visible text = false -> final = GREParser_init).
Proof.
exists (loaded (parse text)). split; [apply parse_loaded|]. split.
- pose proof (parse_loaded text) as H. unfold parse in H at 1.
  by apply parse_groups_groups in H.
- intros Hblank. unfold parse. by rewrite (strip_blank _ Hblank).
Qed.

(** After loading, the entry of an anchor in [anchor_dict] is the last group
    of the corpus with that anchor: every entry is a record of [groups]
    filed under its own anchor, and every group's anchor has an entry. *)
Theorem X_anchor_index_last_group (text : string) :
  let final := loaded (parse text) in
  (forall k, anchor_dict final !! k = last (groups_of_anchor k (groups final)))
  /\ (forall k g, anchor_dict final !! k = Some g ->
        In g (groups final) /\ g_anchor g = k)
  /\ (forall g, In g (groups final) -> is_Some (anchor_dict final !! g_anchor g)).
Proof.
cbn zeta.
assert (Hinv : forall k, anchor_dict (loaded (parse text)) !! k =
                 last (groups_of_anchor k (groups (loaded (parse text))))).
{ pose proof (parse_loaded text) as H. unfold parse in H at 1.
  eapply parse_groups_anchor_index; [|exact H].
  intros k. apply lookup_empty. }
split; [done|]. split.
- intros k g Hk. rewrite Hinv in Hk. apply last_In in Hk.
  by apply groups_of_anchor_In in Hk.
- intros g Hg. rewrite Hinv.
  assert (Hin : In g (groups_of_anchor (g_anchor g) (groups (loaded (parse text)))))
    by by apply groups_of_anchor_In.
  destruct (groups_of_anchor _ _) as [|g' gs'] eqn:E using rev_ind; [done|].
  rewrite last_snoc. by eexists.
Qed.

Section RootIndex.

Lemma dict_append_In k x d r w :
  In w (dict_words (dict_append k x d) r) <->
  In w (dict_words d r) \/ (r = k /\ w = x).
Proof.
rewrite dict_words_append. case_decide as E.
- subst r. rewrite in_app_iff. simpl. naive_solver.
- naive_solver.
Qed.

Lemma fold_index_In dws : forall d r w,
  In w (dict_words (fold_left index_derived dws d) r) <->
  In w (dict_words d r)
  \/ (exists dw, In dw dws /\ r = Some (dw_root dw) /\ w = Some (dw_word dw)).
Proof.
induction dws as [|dw dws IH]; intros d r w.
- cbn. naive_solver.
- cbn [fold_left]. rewrite IH. unfold index_derived.
  rewrite dict_append_In. simpl. naive_solver.
Qed.

(** What a list of blocks adds under the key [r] for the anchor [a]. *)
Lemma fold_add_block_In a bs : forall s r w,
  In w (dict_words (fold_left (add_block a) bs s).2 r) <->
  In w (dict_words s.2 r)
  \/ (exists b : block, In b bs /\
        ((r = b.1.1 /\ w = a)
         \/ (exists dw, In dw b.2 /\ r = Some (dw_root dw) /\ w = Some (dw_word dw)))).
Proof.
induction bs as [|b bs IH]; intros s r w.
- cbn. naive_solver.
- cbn [fold_left]. rewrite IH, add_block_snd, fold_index_In, dict_append_In.
  simpl. naive_solver.
Qed.

Lemma root_entry_blocks a syn ant mean ctxs bs r w :
  root_entry r (fold_left group_add_block bs (mkGroup a syn ant mean [] [] ctxs)) w <->
  (exists b : block, In b bs /\
     ((r = b.1.1 /\ w = a)
      \/ (exists dw, In dw b.2 /\ r = Some (dw_root dw) /\ w = Some (dw_word dw)))).
Proof.
unfold root_entry.
destruct (fold_group_add_block_fields bs (mkGroup a syn ant mean [] [] ctxs))
  as (-> & -> & ->). cbn [g_anchor g_roots g_derived app].
rewrite map_map. cbn [rr_root]. split.
- intros [[Hr ->]|(dw & Hdw & -> & ->)].
  + apply in_map_iff in Hr as (b & <- & Hb). exists b. auto.
  + apply in_concat in Hdw as (l & Hl & Hdw).
    apply in_map_iff in Hl as (b & <- & Hb). exists b. split; [done|].
    right. by exists dw.
- intros (b & Hb & [[-> ->]|(dw & Hdw & -> & ->)]).
  + left. split; [|done]. apply in_map_iff. by exists b.
  + right. exists dw. split; [|done]. apply in_concat.
    exists b.2. split; [|done]. apply in_map_iff. by exists b.
Qed.

Lemma parse_group_In self group self' r w :
  parse_group self group = Done self' ->
  In w (root_words self' r) <->
  In w (root_words self r)
  \/ (exists gd, group_record group = Some gd /\ root_entry r gd w).
Proof.
destruct (parse_group_cases self group)
  as [[Hrec ->]|(a & syn & ant & mean & dbs & ctxs & H)].
- intros [= <-]. rewrite Hrec. naive_solver.
- cbn zeta in H. destruct H as (_ & Hrec & ->). intros [= <-].
  unfold root_words. cbn [root_dict]. rewrite fold_add_block_In, Hrec.
  cbn [snd]. rewrite <- (root_entry_blocks a syn ant mean ctxs). naive_solver.
Qed.

Lemma parse_groups_In gs : forall self final r w,
  parse_groups self gs = Done final ->
  In w (root_words final r) <->
  In w (root_words self r)
  \/ (exists gd, In gd (omap group_record gs) /\ root_entry r gd w).
Proof.
induction gs as [|g gs IH]; intros self final r w.
- intros [= <-]. cbn. naive_solver.
- cbn [parse_groups]. destruct (parse_group self g) as [s| |] eqn:E; [|done..].
  cbn [mbind outcome_bind]. intros Hf.
  rewrite (IH _ _ r w Hf), (parse_group_In _ _ _ r w E).
  cbn [omap list_omap]. destruct (group_record g) as [gd|]; simpl; naive_solver.
Qed.

Lemma root_entry_mentions r g :
  (exists w, root_entry r g w) <-> mentions_root r g.
Proof.
unfold root_entry, mentions_root. split.
- intros (w & [[H _]|(dw & Hdw & -> & _)]); [by left|].
  right. apply in_map_iff. by exists dw.
- intros [H|H].
  + exists (g_anchor g). by left.
  + apply in_map_iff in H as (dw & <- & Hdw).
    exists (Some (dw_word dw)). right. by exists dw.
Qed.

Lemma loaded_root_words text r w :
  In w (root_words (loaded (parse text)) r) <->
  exists g, In g (groups (loaded (parse text))) /\ root_entry r g w.
Proof.
pose proof (parse_loaded text) as H. unfold parse in H at 1.
rewrite (parse_groups_In _ _ _ r w H), (parse_groups_groups _ _ _ H).
assert (Hinit : root_words GREParser_init r = []).
{ unfold root_words, dict_words, GREParser_init. cbn [root_dict].
  by rewrite lookup_empty. }
rewrite Hinit. simpl. naive_solver.
Qed.

End RootIndex.

(** After loading, the root index holds what the groups say and nothing
    else: a word is recorded under a key exactly when some group of the
    corpus has that key among its roots and the word is its anchor, or has
    a derived word with that key as root and the word as text. *)
Theorem X_root_index_entries (text : string) (r w : option string) :
  In w (root_words (loaded (parse text)) r) <->
  exists g, In g (groups (loaded (parse text))) /\ root_entry r g w.
Proof. apply loaded_root_words. Qed.

(** Loading and then looking a root up: [query_root] reports that nothing
    was found exactly when no group of the corpus refers to the root;
    otherwise the members of the set it reports are exactly the anchors of
    the groups that have the root and the derived words under it. *)
Theorem X_query_root_after_load (text root : string) :
  let final := loaded (parse text) in
  (query_root final root = None <->
     forall g, In g (groups final) -> ~ mentions_root (Some root) g)
  /\ (forall words, query_root final root = Some words ->
        forall w, w ∈ words <->
          exists g, In g (groups final) /\ root_entry (Some root) g w).
Proof.
cbn zeta. rewrite query_root_words. split.
- destruct (decide (root_words (loaded (parse text)) (Some root) = [])) as [E|E].
  + split; [|done]. intros _ g Hg Hm.
    apply root_entry_mentions in Hm as [w Hw].
    assert (Hin : In w (root_words (loaded (parse text)) (Some root))).
    { apply loaded_root_words. by exists g. }
    by rewrite E in Hin.
  + split; [done|]. intros Hno. exfalso.
    destruct (root_words (loaded (parse text)) (Some root)) as [|w ws] eqn:Ew;
      [done|].
    assert (Hin : In w (root_words (loaded (parse text)) (Some root)))
      by (rewrite Ew; by left).
    apply loaded_root_words in Hin as (g & Hg & Hw).
    apply (Hno g Hg). apply root_entry_mentions. by exists w.
- intros words Hq w. case_decide; [done|]. injection Hq as <-.
  rewrite elem_of_list_to_set, list_elem_of_In. apply loaded_root_words.
Qed.

Section WellFormed.

Lemma block_ok_shape (b : block) :
  block_ok b ->
  exists root root_meaning,
    b.1.1 = Some root /\ b.1.2 = Some root_meaning
    /\ Forall (fun dw => dw_word dw <> EmptyString /\ dw_root dw = root) b.2.
Proof.
intros (first & rest & ->). cbn [parse_derived_block].
destruct (Re.match_root first) as [[root root_meaning]|]; cbn [fst snd];
  eexists _, _; (split; [done|]); (split; [done|]); apply derived_words_of_ok.
Qed.

Lemma group_record_ok group gd : group_record group = Some gd -> group_ok gd.
Proof.
destruct (parse_group_cases GREParser_init group)
  as [[-> _]|(a & syn & ant & mean & dbs & ctxs & H)]; [done|].
cbn zeta in H. destruct H as (Hok & -> & _). intros [= <-].
unfold group_ok.
destruct (fold_group_add_block_fields dbs (mkGroup a syn ant mean [] [] ctxs))
  as (_ & -> & ->). cbn [g_roots g_derived app]. split.
- apply Forall_map. eapply Forall_impl; [exact Hok|]. intros b Hb.
  destruct (block_ok_shape b Hb) as (root & root_meaning & -> & -> & _).
  cbn [rr_root rr_meaning]. by split; eexists.
- apply Forall_forall. intros dw Hdw. apply list_elem_of_In in Hdw.
  apply in_concat in Hdw as (l & Hl & Hdw).
  apply in_map_iff in Hl as (b & <- & Hb).
  rewrite List.Forall_forall in Hok.
  destruct (block_ok_shape b (Hok b Hb)) as (root & root_meaning & Hr & _ & Hws).
  rewrite List.Forall_forall in Hws. destruct (Hws dw Hdw) as [Hne Hroot].
  split; [done|]. rewrite map_map. apply in_map_iff. exists b.
  cbn [rr_root]. by rewrite Hr, Hroot.
Qed.

Lemma loaded_groups_records text g :
  In g (groups (loaded (parse text))) -> exists group, group_record group = Some g.
Proof.
pose proof (parse_loaded text) as H. unfold parse in H at 1.
rewrite (parse_groups_groups _ _ _ H). cbn [GREParser_init groups app].
intros Hg. apply list_elem_of_In, list_elem_of_omap in Hg as (group & _ & Hrec).
by exists group.
Qed.

Lemma dict_append_nonempty k x d :
  (forall r, d !! r <> Some []) -> forall r, dict_append k x d !! r <> Some [].
Proof.
intros Hd r. unfold dict_append. rewrite lookup_insert. case_decide; [|apply Hd].
intros [= Hnil]. by apply app_eq_nil in Hnil as [_ ?].
Qed.

Lemma fold_index_nonempty dws : forall d,
  (forall r, d !! r <> Some []) ->
  forall r, fold_left index_derived dws d !! r <> Some [].
Proof.
induction dws as [|dw dws IH]; intros d Hd; [done|].
cbn [fold_left]. apply IH. by apply dict_append_nonempty.
Qed.

Lemma fold_add_block_nonempty a bs : forall s,
  (forall r, s.2 !! r <> Some []) ->
  forall r, (fold_left (add_block a) bs s).2 !! r <> Some [].
Proof.
induction bs as [|b bs IH]; intros s Hs; [done|].
cbn [fold_left]. apply IH. rewrite add_block_snd.
by apply fold_index_nonempty, dict_append_nonempty.
Qed.

Lemma parse_groups_nonempty gs : forall self final,
  (forall r, root_dict self !! r <> Some []) ->
  parse_groups self gs = Done final ->
  forall r, root_dict final !! r <> Some [].
Proof.
induction gs as [|g gs IH]; intros self final Hs.
- by intros [= <-].
- cbn [parse_groups].
  destruct (parse_group_cases self g)
    as [[_ ->]|(a & syn & ant & mean & dbs & ctxs & H)].
  + cbn [mbind outcome_bind]. by apply IH.
  + cbn zeta in H. destruct H as (_ & _ & ->). cbn [mbind outcome_bind].
    apply IH. cbn [root_dict]. by apply fold_add_block_nonempty.
Qed.

End WellFormed.

(** Every group of a loaded corpus is well formed: each of its roots and
    root meanings is set (never [None]), and each of its derived words is
    not empty and has one of the roots of the group in its root field.  In
    the root index no key maps to the empty list, and every key is a
    string (never [None]). *)
Theorem X_loaded_groups_well_formed (text : string) :
  let final := loaded (parse text) in
  Forall group_ok (groups final)
  /\ (forall r, root_dict final !! r <> Some [])
  /\ (forall r, is_Some (root_dict final !! r) -> is_Some r).
Proof.
cbn zeta.
assert (Hok : Forall group_ok (groups (loaded (parse text)))).
{ apply List.Forall_forall. intros g Hg.
  destruct (loaded_groups_records text g Hg) as [group Hrec].
  by eapply group_record_ok. }
assert (Hne : forall r, root_dict (loaded (parse text)) !! r <> Some []).
{ pose proof (parse_loaded text) as H. unfold parse in H at 1.
  eapply parse_groups_nonempty; [|exact H]. intros r.
  unfold GREParser_init. cbn [root_dict]. by rewrite lookup_empty. }
split; [done|]. split; [done|].
intros r [ws Hws]. destruct ws as [|w ws]; [by apply Hne in Hws|].
assert (Hin : In w (root_words (loaded (parse text)) r)).
{ unfold root_words, dict_words. rewrite Hws. by left. }
apply loaded_root_words in Hin as (g & Hg & Hentry).
rewrite List.Forall_forall in Hok. destruct (Hok g Hg) as [Hroots _].
destruct Hentry as [[Hr _]|(dw & _ & -> & _)]; [|by eexists].
apply in_map_iff in Hr as (rr & <- & Hrr).
rewrite List.Forall_forall in Hroots. by destruct (Hroots rr Hrr).
Qed.

(** ** The lines of a group *)

Section GroupLines.
Import PyStr.

Lemma split_no_sep sep s : Forall (fun w => char_in sep w = false) (split sep s).
Proof.
induction s as [|c s IH]; [by repeat constructor|]. cbn [split].
destruct (char_eqb c sep) eqn:E; [by constructor|].
destruct (split sep s) as [|w ws]; [by repeat constructor; simpl; rewrite char_eqb_sym, E|].
inversion IH as [|? ? Hw Hws]; subst. constructor; [|done].
simpl. by rewrite char_eqb_sym, E, Hw.
Qed.

Lemma visible_has_token line : visible line = true -> Re.findall_tokens line <> [].
Proof.
intros Hv Hnil.
pose proof (findall_tokens_covers (String.length line) line (le_n _)) as Hcov.
rewrite Hnil in Hcov. simpl in Hcov. symmetry in Hcov.
apply keep_visible_empty in Hcov. congruence.
Qed.

End GroupLines.

(** The lines that [parse] takes from a group text each have a character
    that is not whitespace and have no newline; so the anchor line of a
    group always has at least one token. *)
Theorem X_group_lines_clean (group : string) :
  Forall (fun l => visible l = true /\ PyStr.char_in PyStr.nl l = false)
    (group_lines group)
  /\ (forall anchor_line rest, group_lines group = anchor_line :: rest ->
        Re.findall_tokens anchor_line <> []).
Proof.
assert (H : Forall (fun l => visible l = true /\ PyStr.char_in PyStr.nl l = false)
              (group_lines group)).
{ unfold group_lines. apply List.Forall_forall. intros l Hl.
  apply List.filter_In in Hl as [Hl Hv]. rewrite truthy_strip in Hv.
  split; [done|].
  pose proof (split_no_sep PyStr.nl (PyStr.strip group)) as Hs.
  rewrite List.Forall_forall in Hs. by apply Hs. }
split; [done|]. intros anchor_line rest Hlines. rewrite Hlines in H.
inversion H as [|? ? [Hv _] _]; subst. by apply visible_has_token.
Qed.

(** ** Loading and then looking an anchor up *)

Section AnchorQuery.

Lemma loaded_anchor_index text k :
  anchor_dict (loaded (parse text)) !! k =
    last (groups_of_anchor k (groups (loaded (parse text)))).
Proof.
pose proof (parse_loaded text) as H. unfold parse in H at 1.
eapply parse_groups_anchor_index; [|exact H].
intros k'. apply lookup_empty.
Qed.

Lemma last_None_nil {A} (l : list A) : last l = None <-> l = [].
Proof.
split; [|by intros ->].
destruct l as [|x l] using rev_ind; [done|]. by rewrite last_snoc.
Qed.

End AnchorQuery.

(** Loading and then looking an anchor up: [query_anchor] prints the single
    line [No entry for] and the word exactly when no group of the corpus
    has that anchor.  Otherwise it prints the last group of the corpus with
    that anchor: the first line is [Anchor:] and the word itself, the
    second the meanings of that group joined by semicolons, and nothing
    more when the group has no synonyms, antonyms, roots, derived words
    and contexts. *)
Theorem X_query_anchor_after_load (text anchor : string) :
  let final := loaded (parse text) in
  (query_anchor final anchor = ["No entry for " +:+ anchor] <->
     forall g, In g (groups final) -> g_anchor g <> Some anchor)
  /\ (forall g, last (groups_of_anchor (Some anchor) (groups final)) = Some g ->
        (exists more,
           query_anchor final anchor =
             ("Anchor: " +:+ anchor)
               :: ("Meanings: " +:+ PyStr.join "; " (g_meanings g)) :: more)
        /\ (g_synonyms g = [] -> g_antonyms g = [] -> g_roots g = [] ->
            g_derived g = [] -> g_contexts g = [] ->
            query_anchor final anchor =
              ["Anchor: " +:+ anchor;
               "Meanings: " +:+ PyStr.join "; " (g_meanings g)])).
Proof.
cbn zeta. unfold query_anchor. rewrite loaded_anchor_index. split.
- destruct (last (groups_of_anchor (Some anchor) (groups (loaded (parse text)))))
    as [g|] eqn:E.
  + split; [done|]. intros Hno. exfalso. apply last_In in E.
    apply groups_of_anchor_In in E as [Hg Ha]. by apply (Hno g).
  + split; [|done]. intros _ g Hg Ha. apply last_None_nil in E.
    assert (Hin : In g (groups_of_anchor (Some anchor) (groups (loaded (parse text)))))
      by by apply groups_of_anchor_In.
    by rewrite E in Hin.
- intros g Hg. rewrite Hg.
  pose proof (last_In _ _ Hg) as Hin.
  apply groups_of_anchor_In in Hin as [_ Ha]. rewrite Ha. cbn [PyStr.str default].
  split; [by eexists|].
  intros -> -> -> -> ->. reflexivity.
Qed.

Lemma X_query_anchor_after_load_witness :
  exists more,
    query_anchor (loaded (parse (unlines ["run dash"; ""; "run sprint; race"]))) "run" =
      "Anchor: run" :: "Meanings: run sprint; race" :: more.
Proof.
destruct (X_query_anchor_after_load
            (unlines ["run dash"; ""; "run sprint; race"]) "run") as [_ H].
destruct (H (mkGroup (Some "run") ["sprint"; "race"] [] ["run sprint"; "race"] [] [] []))
  as [Hq _].
- reflexivity.
- exact Hq.
Defined.

(** ** The command loop *)

Section CommandLoop.
Import PyStr.

Lemma strip_ends s c :
  head_char (strip s) = Some c \/ last_char (strip s) = Some c -> isspace c = false.
Proof. apply (strip_by_ends isspace). Qed.

Lemma last_char_visible s c :
  last_char s = Some c -> isspace c = false -> visible s = true.
Proof.
induction s as [|d s IH]; [done|]. intros Hl Hc.
destruct s as [|e s].
- injection Hl as ->. simpl. by rewrite Hc.
- rewrite last_char_cons in Hl by done.
  change (visible (String d (String e s)))
    with (negb (isspace d) || visible (String e s)).
  rewrite (IH Hl Hc). apply orb_true_r.
Qed.

Lemma last_char_Some s : s <> EmptyString -> exists c, last_char s = Some c.
Proof.
induction s as [|d s IH]; [done|]. intros _.
destruct s as [|e s]; [by exists d|].
rewrite last_char_cons by done. by apply IH.
Qed.

(** What is left of a stripped command after its first two characters, the
    second being a space, has a character that is not whitespace. *)
Lemma command_argument_visible line c :
  startswith (strip line) (String c " ") = true ->
  visible (slice_from 2 (strip line)) = true.
Proof.
intros Hs. pose proof (strip_ends line) as Hends.
destruct (strip line) as [|c1 [|c2 r]];
  [done|cbn in Hs; by destruct (char_eqb c1 c)|].
cbn [startswith] in Hs. apply andb_true_iff in Hs as [_ Hs].
apply andb_true_iff in Hs as [Hc2 _]. apply char_eqb_eq in Hc2. subst c2.
cbn [slice_from].
destruct r as [|c3 r].
- specialize (Hends " "%char). discriminate Hends. by right.
- destruct (last_char_Some (String c3 r)) as [d Hd]; [done|].
  apply (last_char_visible _ d Hd). apply Hends. right. exact Hd.
Qed.

Lemma read_command_argument line a :
  read_command line = CmdAnchor a \/ read_command line = CmdRoot a ->
  a = strip (slice_from 2 (strip line))
  /\ visible (slice_from 2 (strip line)) = true.
Proof.
unfold read_command. destruct (bool_decide (strip line = "q")); [by intros [|]|].
destruct (startswith (strip line) "a ") eqn:Ea.
- intros [[= <-]|[=]]. split; [done|]. by eapply command_argument_visible.
- destruct (startswith (strip line) "r ") eqn:Er; [|by intros [|]].
  intros [[=]|[= <-]]. split; [done|]. by eapply command_argument_visible.
Qed.



End CommandLoop.

(** The command loop never asks for an empty word: when a line of input is
    read as an anchor query or as a root query, the word passed on is not
    empty and neither starts nor ends with whitespace.  A line is read as
    the command to quit exactly when, stripped, it is [q]. *)
Theorem X_read_command_argument (line : string) :
  (forall a, read_command line = CmdAnchor a \/ read_command line = CmdRoot a ->
     a <> EmptyString
     /\ forall c, head_char a = Some c \/ last_char a = Some c ->
                  PyStr.isspace c = false)
  /\ (read_command line = CmdQuit <-> PyStr.strip line = "q").
Proof.
split.
- intros a Ha. destruct (read_command_argument line a Ha) as [-> Hv]. split.
  + apply visible_nonempty. by rewrite visible_strip.
  + apply strip_ends.
- unfold read_command. destruct (bool_decide (PyStr.strip line = "q")) eqn:E.
  + apply bool_decide_eq_true in E. by split.
  + apply bool_decide_eq_false in E. split; [|done].
    by repeat case_match.
Qed.



(** ** Groups separated by a blank line *)

Section BlankLines.
Import PyStr Re.

Lemma isspace_nl : isspace nl = true.
Proof. reflexivity. Qed.

Lemma blank_tail_append s t c :
  last_char s = Some c -> isspace c = false ->
  blank_tail (s +:+ t) = blank_tail s.
Proof.
induction s as [|d s IH]; [done|]. intros Hl Hc.
rewrite append_cons. cbn [blank_tail].
destruct s as [|e s].
- injection Hl as ->. by rewrite Hc.
- rewrite last_char_cons in Hl by done. by rewrite (IH Hl Hc).
Qed.

Lemma match_blank_append s t c :
  last_char s = Some c -> isspace c = false ->
  match_blank (s +:+ t) = match_blank s.
Proof.
destruct s as [|d s]; [done|]. intros Hl Hc.
rewrite append_cons. cbn [match_blank].
destruct (char_eqb d nl) eqn:Ed; [|done].
destruct s as [|e s].
- injection Hl as ->. apply char_eqb_eq in Ed. subst c. by rewrite isspace_nl in Hc.
- rewrite last_char_cons in Hl by done. by rewrite (blank_tail_append _ _ c).
Qed.

(** Inside a text with no separator that ends in a visible character the
    scan finds no match, whatever follows the text. *)
Lemma split_from_free g : forall cur t,
  blank_free g = true ->
  (forall c, last_char g = Some c -> isspace c = false) ->
  split_from 0 cur (g +:+ t) = split_from 0 (cur +:+ g) t.
Proof.
induction g as [|d g IH]; intros cur t Hfree Hlast.
- by rewrite append_nil_r.
- destruct (last_char_Some (String d g)) as [c Hc]; [done|].
  rewrite append_cons. cbn [split_from]. rewrite <- append_cons.
  rewrite (match_blank_append _ _ c Hc (Hlast c Hc)).
  cbn [blank_free] in Hfree.
  destruct (match_blank (String d g)); [done|].
  assert (Hcur : cur +:+ String d g = (cur +:+ String d EmptyString) +:+ g)
    by by rewrite append_assoc.
  rewrite Hcur. destruct g as [|e g].
  + by rewrite append_nil_r.
  + apply IH; [done|]. intros c' Hc'. apply Hlast.
    by rewrite last_char_cons.
Qed.

Lemma blank_tail_head_visible s :
  (forall c, head_char s = Some c -> isspace c = false) -> blank_tail s = None.
Proof. destruct s as [|c s]; [done|]. intros H. cbn. by rewrite (H c). Qed.

Lemma blank_tail_separator ws rest :
  all_chars isspace ws = true ->
  (forall c, head_char rest = Some c -> isspace c = false) ->
  blank_tail (ws +:+ String nl rest) = Some (S (String.length ws)).
Proof.
intros Hws Hrest. induction ws as [|c ws IH].
- cbn [String.length]. change (EmptyString +:+ String nl rest) with (String nl rest).
  cbn [blank_tail]. rewrite isspace_nl, (blank_tail_head_visible rest Hrest).
  unfold char_eqb. by rewrite bool_decide_eq_true_2.
- rewrite append_cons. cbn [blank_tail String.length]. simpl in Hws.
  apply andb_true_iff in Hws as [-> Hws]. by rewrite (IH Hws).
Qed.

Lemma split_from_skip s : forall cur t,
  split_from (String.length s) cur (s +:+ t) = split_from 0 cur t.
Proof.
induction s as [|c s IH]; intros cur t; [by destruct t|].
rewrite append_cons. cbn [String.length split_from]. apply IH.
Qed.

Lemma split_blank_separator g ws rest :
  blank_free g = true ->
  (forall c, last_char g = Some c -> isspace c = false) ->
  all_chars isspace ws = true ->
  (forall c, head_char rest = Some c -> isspace c = false) ->
  split_blank (g +:+ String nl (ws +:+ String nl rest)) = g :: split_blank rest.
Proof.
intros Hfree Hlast Hws Hrest. unfold split_blank.
rewrite split_from_free by done.
change (EmptyString +:+ g) with g. cbn [split_from match_blank].
unfold char_eqb at 1. rewrite bool_decide_eq_true_2 by done.
rewrite (blank_tail_separator ws rest Hws Hrest). cbn [fmap option_fmap option_map].
f_equal. rewrite Nat.sub_succ, Nat.sub_0_r.
rewrite <- (split_from_skip (ws +:+ String nl EmptyString) EmptyString rest).
rewrite append_assoc, append_length. cbn [String.length].
rewrite Nat.add_1_r. by rewrite append_cons.
Qed.

Lemma rstrip_id s :
  (forall c, last_char s = Some c -> isspace c = false) ->
  rstrip_by isspace s = s.
Proof.
induction s as [|d s IH]; [done|]. intros Hl. cbn [rstrip_by].
destruct s as [|e s].
- cbn. by rewrite (Hl d).
- rewrite IH; [done|]. intros c Hc. apply Hl. by rewrite last_char_cons.
Qed.

Lemma strip_id s :
  (forall c, head_char s = Some c -> isspace c = false) ->
  (forall c, last_char s = Some c -> isspace c = false) ->
  strip s = s.
Proof.
intros Hh Hl. unfold strip. rewrite (rstrip_id s Hl).
destruct s as [|c s]; [done|]. cbn. by rewrite (Hh c).
Qed.

Lemma head_char_append s t : s <> EmptyString -> head_char (s +:+ t) = head_char s.
Proof. by destruct s. Qed.

Lemma last_char_append s t : t <> EmptyString -> last_char (s +:+ t) = last_char t.
Proof.
intros Ht. induction s as [|c s IH]; [done|]. rewrite append_cons.
rewrite last_char_cons; [done|]. destruct s; [by destruct t|done].
Qed.

End BlankLines.

(** A blank line separates groups.  Let a text be made of a first group
    text, a newline, whitespace, a newline, and the rest, where the first
    group text and the rest are not empty and have no whitespace at their
    ends, and the separator of groups matches nowhere inside the first
    group text.  Then the text is split into the first group text followed
    by the group texts of the rest, and loading it is loading the first
    group and then the groups of the rest. *)
Theorem X_blank_line_separates_groups (g ws rest : string) :
  g <> EmptyString -> PyStr.strip g = g ->
  rest <> EmptyString -> PyStr.strip rest = rest ->
  blank_free g = true ->
  all_chars PyStr.isspace ws = true ->
  Re.split_blank (g +:+ String PyStr.nl (ws +:+ String PyStr.nl rest)) =
    g :: Re.split_blank rest
  /\ parse (g +:+ String PyStr.nl (ws +:+ String PyStr.nl rest)) =
       (self ← parse_group GREParser_init g;
        parse_groups self (Re.split_blank (PyStr.strip rest))).
Proof.
intros Hg Hgs Hr Hrs Hfree Hws.
assert (Hg_ends : forall c, head_char g = Some c \/ last_char g = Some c ->
                    PyStr.isspace c = false).
{ rewrite <- Hgs. apply strip_ends. }
assert (Hr_ends : forall c, head_char rest = Some c \/ last_char rest = Some c ->
                    PyStr.isspace c = false).
{ rewrite <- Hrs. apply strip_ends. }
assert (Hsplit : Re.split_blank (g +:+ String PyStr.nl (ws +:+ String PyStr.nl rest)) =
                 g :: Re.split_blank rest).
{ apply split_blank_separator; auto. }
split; [done|]. unfold parse. rewrite strip_id.
- rewrite Hsplit, Hrs. reflexivity.
- intros c. rewrite head_char_append by done. auto.
- intros c. rewrite last_char_append by done.
  change (String PyStr.nl (ws +:+ String PyStr.nl rest))
    with (String PyStr.nl EmptyString +:+ (ws +:+ String PyStr.nl rest)).
  rewrite last_char_append by (by destruct ws).
  change (String PyStr.nl rest) with (String PyStr.nl EmptyString +:+ rest).
  rewrite !last_char_append by done. auto.
Qed.

Lemma X_blank_line_separates_groups_witness :
  Re.split_blank (unlines ["run dash"; "  "; "clear lucid"; "["; "]"]) =
    ["run dash"; unlines ["clear lucid"; "["; "]"]].
Proof.
apply (X_blank_line_separates_groups "run dash" "  "
         (unlines ["clear lucid"; "["; "]"])).
- discriminate.
- reflexivity.
- discriminate.
- reflexivity.
- reflexivity.
- reflexivity.
Defined.

(** ** Contexts without quotes, and the size of the root index *)

Section ContextsAndCounts.

Lemma scan_pass_contexts_ok (P : string -> Prop) lines :
  (forall l, P (context_text l)) ->
  forall mode derived_blocks contexts,
    Forall P contexts ->
    match mode with InContext context_lines => Forall P context_lines | _ => True end ->
    Forall P (scan_pass mode lines derived_blocks contexts).2.
Proof.
intros HP. induction lines as [|l lines IH]; intros mode dbs ctxs Hc Hm.
- destruct mode; cbn; [done|done|]. by apply Forall_app.
- destruct mode as [|bl|cl]; cbn [scan_pass]; repeat case_match;
    apply IH; try done.
  + by apply Forall_app.
  + apply Forall_app. split; [done|]. by repeat constructor.
Qed.

Lemma dict_append_length k x d r :
  length (dict_words (dict_append k x d) r) =
    length (dict_words d r) + (if bool_decide (k = r) then 1 else 0).
Proof.
rewrite dict_words_append. case_decide as E.
- by rewrite length_app, bool_decide_eq_true_2.
- rewrite bool_decide_eq_false_2 by done. lia.
Qed.

Lemma fold_index_length dws : forall d r,
  length (dict_words (fold_left index_derived dws d) r) =
    length (dict_words d r)
    + length (List.filter (fun dw => bool_decide (Some (dw_root dw) = r)) dws).
Proof.
induction dws as [|dw dws IH]; intros d r; [cbn; lia|].
cbn [fold_left List.filter]. rewrite IH. unfold index_derived.
rewrite dict_append_length. destruct (bool_decide _); cbn [length]; lia.
Qed.

Lemma group_add_block_refs r g b :
  root_refs r (group_add_block g b) =
    root_refs r g + (if bool_decide (b.1.1 = r) then 1 else 0)
    + length (List.filter (fun dw => bool_decide (Some (dw_root dw) = r)) b.2).
Proof.
unfold root_refs. cbn [group_add_block g_roots g_derived].
rewrite !List.filter_app, !length_app. cbn [List.filter rr_root].
destruct (bool_decide (b.1.1 = r)); cbn [length]; lia.
Qed.

Lemma fold_add_block_length a r bs : forall s,
  length (dict_words (fold_left (add_block a) bs s).2 r) + root_refs r s.1 =
    length (dict_words s.2 r) + root_refs r (fold_left (add_block a) bs s).1.
Proof.
induction bs as [|b bs IH]; intros s; [done|].
cbn [fold_left]. pose proof (IH (add_block a s b)) as H.
rewrite add_block_fst, add_block_snd, group_add_block_refs in H.
rewrite fold_index_length, dict_append_length in H. lia.
Qed.

Lemma parse_group_length self group self' r :
  parse_group self group = Done self' ->
  length (root_words self' r) =
    length (root_words self r)
    + sum_list (map (root_refs r) (option_list (group_record group))).
Proof.
destruct (parse_group_cases self group)
  as [[-> ->]|(a & syn & ant & mean & dbs & ctxs & H)].
- intros [= <-]. cbn. lia.
- cbn zeta in H. destruct H as (_ & -> & ->). intros [= <-].
  unfold root_words. cbn [root_dict option_list map sum_list].
  pose proof (fold_add_block_length a r dbs
                (mkGroup a syn ant mean [] [] ctxs, root_dict self)) as Hlen.
  destruct (fold_add_block a dbs (mkGroup a syn ant mean [] [] ctxs, root_dict self))
    as (H1 & _). rewrite H1 in Hlen. cbn [fst snd] in Hlen.
  unfold root_refs at 1 in Hlen. cbn [g_roots g_derived List.filter length] in Hlen.
  change (sum_list (map (root_refs r) (option_list (Some ?g))))
    with (root_refs r g + 0).
  lia.
Qed.

Lemma parse_groups_length gs : forall self final r,
  parse_groups self gs = Done final ->
  length (root_words final r) =
    length (root_words self r)
    + sum_list (map (root_refs r) (omap group_record gs)).
Proof.
induction gs as [|g gs IH]; intros self final r.
- intros [= <-]. cbn. lia.
- cbn [parse_groups]. destruct (parse_group self g) as [s| |] eqn:E; [|done..].
  cbn [mbind outcome_bind]. intros Hf.
  rewrite (IH _ _ r Hf), (parse_group_length _ _ _ r E).
  cbn [omap list_omap]. destruct (group_record g); cbn; lia.
Qed.

End ContextsAndCounts.

(** No context that the scanner returns starts or ends with a double
    quote. *)
Theorem X_contexts_unquoted (lines : list string) :
  exists derived_blocks contexts,
    parse_blocks_and_contexts lines = Done (derived_blocks, contexts)
    /\ Forall (fun c => forall ch, head_char c = Some ch \/ last_char c = Some ch ->
                        ch <> PyStr.dquote) contexts.
Proof.
rewrite parse_blocks_and_contexts_pass.
pose proof (scan_pass_contexts_ok
  (fun c => forall ch, head_char c = Some ch \/ last_char c = Some ch ->
            ch <> PyStr.dquote) lines) as H.
destruct (scan_pass Outside lines [] []) as [dbs ctxs] eqn:E.
exists dbs, ctxs. split; [done|].
specialize (H ltac:(
  intros l ch Hch;
  apply (strip_by_ends
           (fun c => PyStr.char_in c (String PyStr.dquote EmptyString))) in Hch;
  intros ->; discriminate Hch) Outside [] [] (List.Forall_nil _) I).
by rewrite E in H.
Qed.

(** The root index keeps every reference, duplicates included: after
    loading, the number of words recorded under a key is the number of
    times the groups of the corpus refer to that key, as a root of a block
    or as the root of a derived word. *)
Theorem X_root_index_counts (text : string) (r : option string) :
  length (root_words (loaded (parse text)) r) =
    sum_list (map (root_refs r) (groups (loaded (parse text)))).
Proof.
pose proof (parse_loaded text) as H. unfold parse in H at 1.
rewrite (parse_groups_length _ _ _ r H), (parse_groups_groups _ _ _ H).
unfold root_words at 1, dict_words, GREParser_init. cbn [root_dict groups app].
by rewrite lookup_empty.
Qed.
